(** * entra approleassignment list: resolution and join

    A shallow embedding of
    [src/m365/entra/commands/approleassignment/approleassignment-list.ts]:
    the option validator, the option set, the application locator
    ([getAppRoleAssignments]), the resource fan-out and the join of
    [commandAction].  JavaScript values that may be [undefined] or [null]
    are kept as such; promises are represented by their settlement. *)

From stdpp Require Import base option list strings gmap.
From Stdlib Require Import String Ascii List Bool.
Import ListNotations.
Open Scope string_scope.
Open Scope list_scope.

(** ** Values *)

(** The fields the command reads are typed [string | null | undefined] by the
    Graph typings ([id?: string], [resourceId?: NullableOption<string>], ...). *)
Inductive jsval : Type :=
| JUndefined
| JNull
| JString (s : string).

#[global] Instance jsval_eq_dec : EqDecision jsval.
Proof. solve_decision. Defined.

(** [x === y] on such values. *)
Definition strict_eq (x y : jsval) : bool := bool_decide (x = y).

(** The text a template literal [`${v}`] puts in the string. *)
Definition template (v : jsval) : string :=
  match v with
  | JUndefined => "undefined"
  | JNull => "null"
  | JString s => s
  end.

(** Truthiness of an optional string option ([if (args.options.appId && ...)]):
    [undefined] and the empty string are falsy. *)
Definition truthy (o : option string) : bool :=
  match o with
  | None => false
  | Some s => negb (String.eqb s "")
  end.

(** ** Data model *)

Record AppRole : Type := mkAppRole {
  role_id : jsval;
  role_value : jsval
}.

Record AppRoleAssignment : Type := mkAppRoleAssignment {
  appRoleId : jsval;
  resourceDisplayName : jsval;
  resourceId : jsval;
  createdDateTime : jsval;
  deletedDateTime : jsval
}.

Record ServicePrincipal : Type := mkServicePrincipal {
  id : jsval;
  appRoles : option (list AppRole);
  appRoleAssignments : option (list AppRoleAssignment)
}.

(** The object literal pushed to [results]. *)
Record EnrichedAssignment : Type := mkEnriched {
  e_appRoleId : jsval;
  e_resourceDisplayName : jsval;
  e_resourceId : jsval;
  e_roleId : jsval;
  e_roleName : jsval;
  e_created : jsval;
  e_deleted : jsval
}.

Record Options : Type := mkOptions {
  appId : option string;
  appDisplayName : option string;
  appObjectId : option string
}.

#[global] Instance AppRole_eq_dec : EqDecision AppRole.
Proof. solve_decision. Defined.
#[global] Instance AppRoleAssignment_eq_dec : EqDecision AppRoleAssignment.
Proof. solve_decision. Defined.
#[global] Instance ServicePrincipal_eq_dec : EqDecision ServicePrincipal.
Proof. solve_decision. Defined.
#[global] Instance EnrichedAssignment_eq_dec : EqDecision EnrichedAssignment.
Proof. solve_decision. Defined.

(** ** Errors and settlements *)

Inductive error : Type :=
| Thrown (message : string)      (* [throw '...'] *)
| TypeError                      (* a property read on [undefined] *)
| Rejected (reason : string).    (* a rejected [request.get] *)

Inductive result (A : Type) : Type :=
| Ok (a : A)
| Err (e : error).
Arguments Ok {A} a.
Arguments Err {A} e.

(** ** The join (lines 108-127 of the source)

    [results] starts empty; the callback of [spAppRoleAssignments.map] runs
    once per assignment, in order, and pushes at most one record.  Reading
    [.find] on an [appRoles] that is [undefined] throws, which leaves the
    callback and the [map]. *)

Definition enriched (a : AppRoleAssignment) (appRole : AppRole) : EnrichedAssignment :=
  {| e_appRoleId := appRoleId a;
     e_resourceDisplayName := resourceDisplayName a;
     e_resourceId := resourceId a;
     e_roleId := role_id appRole;
     e_roleName := role_value appRole;
     e_created := createdDateTime a;
     e_deleted := deletedDateTime a |}.

Definition find_resource (resources : list ServicePrincipal) (a : AppRoleAssignment)
  : option ServicePrincipal :=
  List.find (fun r => strict_eq (id r) (resourceId a)) resources.

Definition find_role (roles : list AppRole) (a : AppRoleAssignment) : option AppRole :=
  List.find (fun r => strict_eq (role_id r) (appRoleId a)) roles.

Fixpoint join_loop (resources : list ServicePrincipal)
    (spAppRoleAssignments : list AppRoleAssignment)
    (results : list EnrichedAssignment) : result (list EnrichedAssignment) :=
  match spAppRoleAssignments with
  | [] => Ok results
  | appRoleAssignment :: rest =>
      match find_resource resources appRoleAssignment with
      | Some resource =>
          match appRoles resource with
          | None => Err TypeError
          | Some roles =>
              match find_role roles appRoleAssignment with
              | Some appRole =>
                  join_loop resources rest (results ++ [enriched appRoleAssignment appRole])
              | None => join_loop resources rest results
              end
          end
      | None => join_loop resources rest results
      end
  end.

Definition join (spAppRoleAssignments : list AppRoleAssignment)
    (resources : list ServicePrincipal) : result (list EnrichedAssignment) :=
  join_loop resources spAppRoleAssignments [].

(** ** Requests, promises and the command's state *)

(** What [request.get] answers for a URL, one function per response shape
    the command casts the answer to.  The directory does not change during
    one run: the same URL gets the same answer. *)
Record ODataCollection (A : Type) : Type := mkCollection { value : list A }.
Arguments mkCollection {A} value.
Arguments value {A} _.

Record Directory : Type := mkDirectory {
  get_appRoleAssignments : string -> result (ODataCollection AppRoleAssignment);
  get_servicePrincipals : string -> result (ODataCollection ServicePrincipal);
  get_servicePrincipal : string -> result ServicePrincipal
}.

(** The URLs requested so far and what [logger.log] has received. *)
Record State : Type := mkState {
  requests : list string;
  logged : list (list EnrichedAssignment)
}.

Definition initial : State := {| requests := []; logged := [] |}.

(** An [async] body: it runs from a state to a state and either returns or
    throws. *)
Definition M (A : Type) : Type := State -> State * result A.

Definition ret {A} (a : A) : M A := fun s => (s, Ok a).
Definition throw {A} (e : error) : M A := fun s => (s, Err e).
Definition bind {A B} (c : M A) (k : A -> M B) : M B :=
  fun s => match c s with
           | (s', Ok a) => k a s'
           | (s', Err e) => (s', Err e)
           end.
Definition try_catch {A} (c : M A) (handler : error -> M A) : M A :=
  fun s => match c s with
           | (s', Ok a) => (s', Ok a)
           | (s', Err e) => handler e s'
           end.

Notation "'let*' x ':=' c 'in' k" := (bind c (fun x => k))
  (at level 10, x name, c at level 100, k at level 200).

(** Calling [request.get] sends the request and hands back a promise, here
    its settlement; nothing is thrown until the promise is awaited. *)
Definition request_get {A} (answer : string -> result A) (url : string) : M (result A) :=
  fun s => ({| requests := requests s ++ [url]; logged := logged s |}, Ok (answer url)).

Definition await {A} (p : result A) : M A :=
  match p with
  | Ok a => ret a
  | Err e => throw e
  end.

Definition logger_log (results : list EnrichedAssignment) : M unit :=
  fun s => ({| requests := requests s; logged := logged s ++ [results] |}, Ok tt).

(** [Promise.all]: fulfilled with every value, in the order of [tasks], when
    all are fulfilled; otherwise rejected with the reason of whichever
    rejected task settles first.  [race] is that choice: any of the rejected
    tasks may be the first, depending on the transport. *)
Fixpoint fulfilled {A} (tasks : list (result A)) : list A :=
  match tasks with
  | [] => []
  | Ok a :: rest => a :: fulfilled rest
  | Err _ :: rest => fulfilled rest
  end.

Fixpoint rejections {A} (tasks : list (result A)) : list error :=
  match tasks with
  | [] => []
  | Ok _ :: rest => rejections rest
  | Err e :: rest => e :: rejections rest
  end.

Definition Promise_all {A} (race : nat) (tasks : list (result A)) : result (list A) :=
  match rejections tasks with
  | [] => Ok (fulfilled tasks)
  | e :: es => Err (List.nth (race mod S (length es)) (e :: es) e)
  end.

Section Command.

(** [this.resource], the Graph endpoint of the base class. *)
Variable resource : string.
(** [formatting.encodeQueryParameter] of [utils/formatting.js]; it is also
    handed [appDisplayName as string], which may be [undefined]. *)
Variable encodeQueryParameter : option string -> string.
(** [validation.isValidGuid] of [utils/validation.js]. *)
Variable isValidGuid : string -> bool.
(** [handleRejectedODataJsonPromise] of the base class: what it throws for
    the value it is given. *)
Variable handleRejectedODataJsonPromise : error -> error.

Variable directory : Directory.
Variable race : nat.

(** *** Validation (lines 67-81)

    The validator pushed to [this.validators]: the check of [appId], then
    ([checkObjectId]) the check of [appObjectId], then [true]. *)

Definition validators (options : Options) : string + bool :=
  let checkObjectId :=
    match appObjectId options with
    | Some v =>
        if truthy (Some v) && negb (isValidGuid v)
        then inl (v +:+ " is not a valid GUID")
        else inr true
    | None => inr true
    end in
  match appId options with
  | Some v =>
      if truthy (Some v) && negb (isValidGuid v)
      then inl (v +:+ " is not a valid GUID")
      else checkObjectId
  | None => checkObjectId
  end.

(** *** The three requests (lines 160-194) *)

Definition getSPAppRoleAssignments (spId : string)
  : M (result (ODataCollection AppRoleAssignment)) :=
  request_get (get_appRoleAssignments directory)
    (resource +:+ "/v1.0/servicePrincipals/" +:+ spId +:+ "/appRoleAssignments").

Definition getServicePrincipalForApp (filterParam : string)
  : M (result (ODataCollection ServicePrincipal)) :=
  request_get (get_servicePrincipals directory)
    (resource +:+ "/v1.0/servicePrincipals?$expand=appRoleAssignments&$filter=" +:+ filterParam).

Definition getServicePrincipal (spId : jsval) : M (result ServicePrincipal) :=
  request_get (get_servicePrincipal directory)
    (resource +:+ "/v1.0/servicePrincipals/" +:+ template spId).

(** *** The application locator (lines 136-158)

    The answer is [undefined] ([None]) when the first service principal
    carries no [appRoleAssignments]. *)

Definition spMatchQuery (argOptions : Options) : string :=
  if truthy (appId argOptions)
  then "appId eq '" +:+ encodeQueryParameter (appId argOptions) +:+ "'"
  else "displayName eq '" +:+ encodeQueryParameter (appDisplayName argOptions) +:+ "'".

Definition getAppRoleAssignments_byFilter (argOptions : Options)
  : M (option (list AppRoleAssignment)) :=
  let* p := getServicePrincipalForApp (spMatchQuery argOptions) in
  let* resp := await p in
  match value resp with
  | [] => throw (Thrown "app registration not found")
  | first :: _ => ret (appRoleAssignments first)
  end.

Definition getAppRoleAssignments (argOptions : Options)
  : M (option (list AppRoleAssignment)) :=
  match appObjectId argOptions with
  | Some spId =>
      if truthy (Some spId) then
        let* p := getSPAppRoleAssignments spId in
        let* spAppRoleAssignments := await p in
        if Nat.eqb (length (value spAppRoleAssignments)) 0
        then throw (Thrown "no app role assignments found")
        else ret (Some (value spAppRoleAssignments))
      else getAppRoleAssignments_byFilter argOptions
  | None => getAppRoleAssignments_byFilter argOptions
  end.

(** *** The fan-out and the action (lines 91-134) *)

(** The [for] loop over [resourceIds]: each turn sends one request and
    pushes its promise. *)
Fixpoint push_tasks (resourceIds : list jsval) (tasks : list (result ServicePrincipal))
  : M (list (result ServicePrincipal)) :=
  match resourceIds with
  | [] => ret tasks
  | spId :: rest =>
      let* p := getServicePrincipal spId in
      push_tasks rest (tasks ++ [p])
  end.

Definition commandAction (options : Options) : M unit :=
  try_catch
    (let* answer := getAppRoleAssignments options in
     match answer with
     | None => throw TypeError
     | Some spAppRoleAssignments =>
         let resourceIds := List.map resourceId spAppRoleAssignments in
         let* tasks := push_tasks resourceIds [] in
         let* resources := await (Promise_all race tasks) in
         let* results := await (join spAppRoleAssignments resources) in
         logger_log results
     end)
    (fun err => throw (handleRejectedODataJsonPromise err)).

End Command.

(** ** Telemetry (lines 43-51)

    The callback pushed to [this.telemetry] copies three flags into
    [this.telemetryProperties] with [Object.assign]: the keys already there
    stay, the three keys are written, in the order of the literal. *)

Inductive telemetryValue : Type :=
| TBool (b : bool)
| TText (s : string).

(** [typeof v !== 'undefined'] for an option. *)
Definition defined (v : option string) : bool :=
  match v with
  | Some _ => true
  | None => false
  end.

Definition initTelemetry (telemetryProperties : gmap string telemetryValue)
    (o : Options) : gmap string telemetryValue :=
  <["appObjectId" := TBool (defined (appObjectId o))]>
    (<["appDisplayName" := TBool (defined (appDisplayName o))]>
       (<["appId" := TBool (defined (appId o))]> telemetryProperties)).

(** ** The option set (lines 83-85) *)

Record OptionSet : Type := mkOptionSet { options : list string }.

Definition optionSets : list OptionSet :=
  [ {| options := ["appId"; "appObjectId"; "appDisplayName"] |} ].

(** [Object.keys(args.options)] restricted to the three selectors: an option
    is supplied when its key is present, whatever its value. *)
Definition supplied (o : Options) : list string :=
  match appId o with Some _ => ["appId"] | None => [] end ++
  match appDisplayName o with Some _ => ["appDisplayName"] | None => [] end ++
  match appObjectId o with Some _ => ["appObjectId"] | None => [] end.

(** Modelled from the spec: the check of an option set is done by the base
    class [Command], which is not among the sources.  The spec (sections 3,
    6 and 8): exactly one of the options of the set must be supplied;
    supplying none or more than one fails validation. *)
Definition validateOptionSet (o : Options) (set : OptionSet) : bool :=
  Nat.eqb (length (List.filter (fun k => bool_decide (k ∈ options set)) (supplied o))) 1.

Definition validateOptionSets (o : Options) : bool :=
  forallb (validateOptionSet o) optionSets.

(** Modelled from the spec: [validation.isValidGuid] is in
    [utils/validation.js], not among the sources.  The spec (section 8): it
    holds exactly for the canonical GUID text, 8-4-4-4-12 hexadecimal digits
    separated by hyphens. *)
Definition is_hex (c : ascii) : bool :=
  let n := nat_of_ascii c in
  (Nat.leb 48 n && Nat.leb n 57) || (Nat.leb 65 n && Nat.leb n 70)
  || (Nat.leb 97 n && Nat.leb n 102).

Fixpoint guid_shape (groups : list nat) (cs : list ascii) : bool :=
  match groups with
  | [] => match cs with [] => true | _ => false end
  | n :: more =>
      forallb is_hex (firstn n cs) && Nat.eqb (length (firstn n cs)) n &&
      match more, skipn n cs with
      | [], [] => true
      | _ :: _, sep :: tail => Ascii.eqb sep "-" && guid_shape more tail
      | _, _ => false
      end
  end.

Definition validation_isValidGuid (guid : string) : bool :=
  guid_shape [8; 4; 4; 4; 12] (list_ascii_of_string guid).

(** Modelled from the spec: the order in which the CLI layer runs a command
    is in [cli.ts] and [Command.ts], not among the sources.  The spec
    (sections 3, 6 and 7): the option set and the validators are checked
    first, and a failure is surfaced without any network access; otherwise
    the action runs. *)
Inductive outcome : Type :=
| OptionSetViolated
| ValidationFailed (message : string)
| Failed (e : error)
| Done.

Definition execute (resource : string) (encodeQueryParameter : option string -> string)
    (isValidGuid : string -> bool) (handleRejectedODataJsonPromise : error -> error)
    (directory : Directory) (race : nat) (o : Options) (s : State) : State * outcome :=
  if negb (validateOptionSets o) then (s, OptionSetViolated)
  else
    match validators isValidGuid o with
    | inl message => (s, ValidationFailed message)
    | inr _ =>
        match commandAction resource encodeQueryParameter
                handleRejectedODataJsonPromise directory race o s with
        | (s', Ok _) => (s', Done)
        | (s', Err e) => (s', Failed e)
        end
    end.

(** ** The deduplicating variant of section 9 of the spec

    This part follows the words of the spec, not the source: the resource
    identifiers are collected into a set, each is fetched once, and the join
    looks a resource up in a map keyed by resource id. *)

#[global] Instance jsval_countable : Countable jsval.
Proof.
  refine (inj_countable'
    (fun v => match v with
              | JUndefined => inl true
              | JNull => inl false
              | JString s => inr s
              end)
    (fun c => match c with
              | inl true => JUndefined
              | inl false => JNull
              | inr s => JString s
              end) _).
  intros []; reflexivity.
Defined.

Definition distinct_resourceIds (assignments : list AppRoleAssignment) : list jsval :=
  elements (list_to_set (List.map resourceId assignments) : gset jsval).

Definition build_lookup (ids : list jsval) (resources : list ServicePrincipal)
  : gmap jsval ServicePrincipal :=
  list_to_map (zip ids resources).

Fixpoint lookup_join_loop (lookup : gmap jsval ServicePrincipal)
    (assignments : list AppRoleAssignment)
    (results : list EnrichedAssignment) : result (list EnrichedAssignment) :=
  match assignments with
  | [] => Ok results
  | a :: rest =>
      match lookup !! resourceId a with
      | Some resource =>
          match appRoles resource with
          | None => Err TypeError
          | Some roles =>
              match find_role roles a with
              | Some appRole => lookup_join_loop lookup rest (results ++ [enriched a appRole])
              | None => lookup_join_loop lookup rest results
              end
          end
      | None => lookup_join_loop lookup rest results
      end
  end.

Definition lookup_join (assignments : list AppRoleAssignment)
    (lookup : gmap jsval ServicePrincipal) : result (list EnrichedAssignment) :=
  lookup_join_loop lookup assignments [].

Definition commandAction_deduplicated (resource : string)
    (encodeQueryParameter : option string -> string)
    (handleRejectedODataJsonPromise : error -> error)
    (directory : Directory) (race : nat) (o : Options) : M unit :=
  try_catch
    (let* answer := getAppRoleAssignments resource encodeQueryParameter directory o in
     match answer with
     | None => throw TypeError
     | Some assignments =>
         let ids := distinct_resourceIds assignments in
         let* tasks := push_tasks resource directory ids [] in
         let* resources := await (Promise_all race tasks) in
         let* results := await (lookup_join assignments (build_lookup ids resources)) in
         logger_log results
     end)
    (fun err => throw (handleRejectedODataJsonPromise err)).

(** ** A small directory to run the command on *)

Definition guid1 : string := "11111111-1111-1111-1111-111111111111".
Definition guid2 : string := "22222222-2222-2222-2222-222222222222".
Definition guidR1 : string := "aaaaaaaa-0000-0000-0000-000000000001".
Definition guidR2 : string := "aaaaaaaa-0000-0000-0000-000000000002".
Definition guidRole1 : string := "bbbbbbbb-0000-0000-0000-000000000001".
Definition guidRole2 : string := "bbbbbbbb-0000-0000-0000-000000000002".

Definition assignment (res role : string) (name : string) : AppRoleAssignment :=
  {| appRoleId := JString role;
     resourceDisplayName := JString name;
     resourceId := JString res;
     createdDateTime := JString "2024-01-01T00:00:00Z";
     deletedDateTime := JNull |}.

Definition readerRole : AppRole := {| role_id := JString guidRole1; role_value := JString "Reader" |}.
Definition writerRole : AppRole := {| role_id := JString guidRole2; role_value := JString "Writer" |}.

Definition resourceR1 : ServicePrincipal :=
  {| id := JString guidR1; appRoles := Some [readerRole; writerRole]; appRoleAssignments := None |}.
Definition resourceR2 : ServicePrincipal :=
  {| id := JString guidR2; appRoles := Some [readerRole]; appRoleAssignments := None |}.

Definition sampleAssignments : list AppRoleAssignment :=
  [ assignment guidR1 guidRole2 "Graph";
    assignment guidR2 guidRole2 "Vault";
    assignment guidR1 guidRole1 "Graph" ].

Definition sampleApp (assignments : list AppRoleAssignment) : ServicePrincipal :=
  {| id := JString guid1; appRoles := Some []; appRoleAssignments := Some assignments |}.

Definition graph : string := "https://graph.microsoft.com".

Definition sample_encode (v : option string) : string :=
  match v with Some s => s | None => "undefined" end.

(** The directory knows the two resources and one application, found under
    its object id [guid1], its [appId] [guid2] and the display name
    ["Contoso"]; two applications are called ["Twins"]. *)
Definition sampleDirectory : Directory :=
  {| get_appRoleAssignments := fun url =>
       if String.eqb url (graph +:+ "/v1.0/servicePrincipals/" +:+ guid1 +:+ "/appRoleAssignments")
       then Ok (mkCollection sampleAssignments)
       else if String.eqb url (graph +:+ "/v1.0/servicePrincipals/" +:+ guid2 +:+ "/appRoleAssignments")
       then Ok (mkCollection [])
       else Err (Rejected "Request_ResourceNotFound");
     get_servicePrincipals := fun url =>
       let base := graph +:+ "/v1.0/servicePrincipals?$expand=appRoleAssignments&$filter=" in
       if String.eqb url (base +:+ "appId eq '" +:+ guid2 +:+ "'")
       then Ok (mkCollection [sampleApp sampleAssignments])
       else if String.eqb url (base +:+ "displayName eq 'Contoso'")
       then Ok (mkCollection [sampleApp []])
       else if String.eqb url (base +:+ "displayName eq 'Twins'")
       then Ok (mkCollection [sampleApp (firstn 1 sampleAssignments); sampleApp []])
       else Ok (mkCollection []);
     get_servicePrincipal := fun url =>
       if String.eqb url (graph +:+ "/v1.0/servicePrincipals/" +:+ guidR1) then Ok resourceR1
       else if String.eqb url (graph +:+ "/v1.0/servicePrincipals/" +:+ guidR2) then Ok resourceR2
       else Err (Rejected "Request_ResourceNotFound") |}.

Definition sample_handle (e : error) : error := e.

Definition byObjectId (v : string) : Options :=
  {| appId := None; appDisplayName := None; appObjectId := Some v |}.
Definition byAppId (v : string) : Options :=
  {| appId := Some v; appDisplayName := None; appObjectId := None |}.
Definition byDisplayName (v : string) : Options :=
  {| appId := None; appDisplayName := Some v; appObjectId := None |}.

(** The same directory when the fetch of the second resource is refused. *)
Definition flakyDirectory : Directory :=
  {| get_appRoleAssignments := get_appRoleAssignments sampleDirectory;
     get_servicePrincipals := get_servicePrincipals sampleDirectory;
     get_servicePrincipal := fun url =>
       if String.eqb url (graph +:+ "/v1.0/servicePrincipals/" +:+ guidR1) then Ok resourceR1
       else Err (Rejected "Authorization_RequestDenied") |}.

(** A directory in which every filtered query finds one service principal
    that carries no [appRoleAssignments]. *)
Definition bareDirectory : Directory :=
  {| get_appRoleAssignments := get_appRoleAssignments sampleDirectory;
     get_servicePrincipals := fun _ => Ok (mkCollection [resourceR1]);
     get_servicePrincipal := get_servicePrincipal sampleDirectory |}.

(** ** Vocabulary of the statements *)

(** What one turn of the callback adds to [results]. *)
Definition join_step (resources : list ServicePrincipal) (a : AppRoleAssignment)
  : result (list EnrichedAssignment) :=
  match find_resource resources a with
  | Some resource =>
      match appRoles resource with
      | None => Err TypeError
      | Some roles =>
          match find_role roles a with
          | Some appRole => Ok [enriched a appRole]
          | None => Ok []
          end
      end
  | None => Ok []
  end.

(** The assignment has a resource in [resources] and a role in its catalog. *)
Definition matched (resources : list ServicePrincipal) (a : AppRoleAssignment) : bool :=
  match find_resource resources a with
  | Some resource =>
      match appRoles resource with
      | Some roles => match find_role roles a with Some _ => true | None => false end
      | None => false
      end
  | None => false
  end.

(** The assignment a record was made from, read back from the record. *)
Definition source_of (e : EnrichedAssignment) : AppRoleAssignment :=
  {| appRoleId := e_appRoleId e;
     resourceDisplayName := e_resourceDisplayName e;
     resourceId := e_resourceId e;
     createdDateTime := e_created e;
     deletedDateTime := e_deleted e |}.

(** The URL of the fetch of one resource. *)
Definition resource_url (resource : string) (spId : jsval) : string :=
  resource +:+ "/v1.0/servicePrincipals/" +:+ template spId.

(** The URL of the filtered query of the locator. *)
Definition filter_url (resource : string) (filterParam : string) : string :=
  resource +:+ "/v1.0/servicePrincipals?$expand=appRoleAssignments&$filter=" +:+ filterParam.

(** The settlements of the fetches the fan-out makes for a list of
    assignments, one per entry. *)
Definition fetched (resource : string) (directory : Directory)
    (assignments : list AppRoleAssignment) : list (result ServicePrincipal) :=
  List.map (fun a => get_servicePrincipal directory (resource_url resource (resourceId a)))
    assignments.

(** The check of one option: it is reported when it is a non-empty text that
    is not a GUID. *)
Definition reported (isValidGuid : string -> bool) (x : option string) : Prop :=
  exists v, x = Some v /\ v <> "" /\ isValidGuid v = false.

(** The URL of the query of the assignments of one service principal. *)
Definition assignments_url (resource : string) (spId : string) : string :=
  resource +:+ "/v1.0/servicePrincipals/" +:+ spId +:+ "/appRoleAssignments".

(** The one request the locator makes for a set of options. *)
Definition locator_url (resource : string) (encode : option string -> string)
    (o : Options) : string :=
  match appObjectId o with
  | Some spId =>
      if truthy (Some spId) then assignments_url resource spId
      else filter_url resource (spMatchQuery encode o)
  | None => filter_url resource (spMatchQuery encode o)
  end.

Definition is_ok {A} (r : result A) : bool :=
  match r with Ok _ => true | Err _ => false end.

(** * Properties of the join *)

Lemma strict_eq_true x y : strict_eq x y = true <-> x = y.
Proof. unfold strict_eq. apply bool_decide_eq_true. Qed.

Lemma find_resource_Some resources a r :
  find_resource resources a = Some r -> In r resources /\ id r = resourceId a.
Proof.
  unfold find_resource. intros H. apply find_some in H as [Hin Heq].
  split; [exact Hin | now apply strict_eq_true].
Qed.

Lemma find_role_Some roles a r :
  find_role roles a = Some r -> In r roles /\ role_id r = appRoleId a.
Proof.
  unfold find_role. intros H. apply find_some in H as [Hin Heq].
  split; [exact Hin | now apply strict_eq_true].
Qed.

Lemma join_loop_step resources a rest results :
  join_loop resources (a :: rest) results =
  match join_step resources a with
  | Ok new => join_loop resources rest (results ++ new)
  | Err e => Err e
  end.
Proof.
  unfold join_step. simpl.
  destruct (find_resource resources a) as [r|]; [|now rewrite app_nil_r].
  destruct (appRoles r) as [roles|]; [|reflexivity].
  destruct (find_role roles a); [reflexivity | now rewrite app_nil_r].
Qed.

Lemma join_loop_results resources assignments : forall results,
  join_loop resources assignments results =
  match join_loop resources assignments [] with
  | Ok new => Ok (results ++ new)
  | Err e => Err e
  end.
Proof.
  induction assignments as [|a rest IH]; intros results.
  - simpl. now rewrite app_nil_r.
  - rewrite !join_loop_step. destruct (join_step resources a) as [new|e]; [|reflexivity].
    rewrite (IH (results ++ new)), (IH ([] ++ new)).
    destruct (join_loop resources rest []); [|reflexivity].
    simpl. now rewrite app_assoc.
Qed.

Lemma join_cons a rest resources :
  join (a :: rest) resources =
  match join_step resources a with
  | Ok new =>
      match join rest resources with
      | Ok more => Ok (new ++ more)
      | Err e => Err e
      end
  | Err e => Err e
  end.
Proof.
  unfold join. rewrite join_loop_step.
  destruct (join_step resources a) as [new|e]; [|reflexivity].
  now rewrite join_loop_results.
Qed.

Lemma join_app front back resources :
  join (front ++ back) resources =
  match join front resources with
  | Ok out1 =>
      match join back resources with
      | Ok out2 => Ok (out1 ++ out2)
      | Err e => Err e
      end
  | Err e => Err e
  end.
Proof.
  induction front as [|a front IH].
  - change (join [] resources) with (Ok (@nil EnrichedAssignment)).
    simpl. now destruct (join back resources).
  - rewrite <- app_comm_cons, !join_cons, IH.
    destruct (join_step resources a) as [new|]; [|reflexivity].
    destruct (join front resources) as [out1|]; [|reflexivity].
    destruct (join back resources) as [out2|]; [|reflexivity].
    now rewrite app_assoc.
Qed.

Lemma join_step_matched resources a new :
  join_step resources a = Ok new ->
  new = if matched resources a
        then match find_resource resources a with
             | Some r => match appRoles r with
                         | Some roles => match find_role roles a with
                                         | Some role => [enriched a role]
                                         | None => []
                                         end
                         | None => []
                         end
             | None => []
             end
        else [].
Proof.
  unfold join_step, matched.
  destruct (find_resource resources a) as [r|]; [|congruence].
  destruct (appRoles r) as [roles|]; [|discriminate].
  destruct (find_role roles a); congruence.
Qed.

(** C1. Every record the join emits was made from one of the assignments:
    its [roleId] (and [appRoleId]) is that assignment's [appRoleId], its
    [resourceId] is the [id] of the resource the search over [resources]
    found for the assignment, and its [roleName] is the [value] of the role
    the search over that resource's [appRoles] found, whose [id] is the same
    [appRoleId]; the resource is a member of [resources] and the role a
    member of its catalog. *)
Theorem join_correct (assignments : list AppRoleAssignment)
    (resources : list ServicePrincipal) (out : list EnrichedAssignment) :
  join assignments resources = Ok out ->
  forall e, In e out ->
  exists a resource roles appRole,
    In a assignments /\
    find_resource resources a = Some resource /\ In resource resources /\
    appRoles resource = Some roles /\
    find_role roles a = Some appRole /\ In appRole roles /\
    role_id appRole = appRoleId a /\
    e_roleId e = appRoleId a /\
    e_appRoleId e = appRoleId a /\
    e_resourceId e = id resource /\
    e_roleName e = role_value appRole /\
    source_of e = a.
Proof.
  revert out. induction assignments as [|a rest IH]; intros out Hjoin e He.
  - unfold join in Hjoin. simpl in Hjoin. injection Hjoin as <-. destruct He.
  - rewrite join_cons in Hjoin.
    destruct (join_step resources a) as [new|] eqn:Hstep; [|discriminate].
    destruct (join rest resources) as [more|] eqn:Hrest; [|discriminate].
    injection Hjoin as <-. apply in_app_or in He as [He|He].
    + unfold join_step in Hstep.
      destruct (find_resource resources a) as [r|] eqn:Hr;
        [|injection Hstep as <-; destruct He].
      destruct (appRoles r) as [roles|] eqn:Hroles; [|discriminate].
      destruct (find_role roles a) as [role|] eqn:Hrole;
        injection Hstep as <-; [|destruct He].
      destruct He as [<-|[]].
      destruct (find_resource_Some _ _ _ Hr) as [Hin Hid].
      destruct (find_role_Some _ _ _ Hrole) as [Hin' Hid'].
      exists a, r, roles, role. simpl.
      repeat split; auto using in_eq. now destruct a.
    + destruct (IH more eq_refl e He) as (a' & r & roles & role & Hin & H).
      exists a', r, roles, role. split; [now right | exact H].
Qed.

Lemma join_correct_witness :
  exists a resource roles appRole,
    In a sampleAssignments /\
    find_resource [resourceR1; resourceR2] a = Some resource /\
    In resource [resourceR1; resourceR2] /\
    appRoles resource = Some roles /\
    find_role roles a = Some appRole /\ In appRole roles /\
    role_id appRole = appRoleId a /\
    e_roleId (enriched (assignment guidR1 guidRole2 "Graph") writerRole) = appRoleId a /\
    e_appRoleId (enriched (assignment guidR1 guidRole2 "Graph") writerRole) = appRoleId a /\
    e_resourceId (enriched (assignment guidR1 guidRole2 "Graph") writerRole) = id resource /\
    e_roleName (enriched (assignment guidR1 guidRole2 "Graph") writerRole) = role_value appRole /\
    source_of (enriched (assignment guidR1 guidRole2 "Graph") writerRole) = a.
Proof.
  apply (join_correct sampleAssignments [resourceR1; resourceR2]
           [enriched (assignment guidR1 guidRole2 "Graph") writerRole;
            enriched (assignment guidR1 guidRole1 "Graph") readerRole]).
  - vm_compute. reflexivity.
  - left. reflexivity.
Defined.

Lemma source_of_enriched a role : source_of (enriched a role) = a.
Proof. now destruct a. Qed.

Lemma filter_sublist {A} (keep : A -> bool) (l : list A) :
  sublist (List.filter keep l) l.
Proof.
  induction l as [|x l IH]; simpl; [constructor|].
  destruct (keep x); now constructor.
Qed.

(** C4. The records come out in the order of the assignments: reading the
    source assignment back from each record gives exactly the assignments
    that have a resource and a role, in their input order, the others being
    skipped; the order of [resources] plays no part. *)
Theorem join_order (assignments : list AppRoleAssignment)
    (resources : list ServicePrincipal) (out : list EnrichedAssignment) :
  join assignments resources = Ok out ->
  List.map source_of out = List.filter (matched resources) assignments /\
  sublist (List.map source_of out) assignments.
Proof.
  intros Hjoin.
  assert (Heq : List.map source_of out = List.filter (matched resources) assignments).
  { revert out Hjoin. induction assignments as [|a rest IH]; intros out Hjoin.
    - unfold join in Hjoin. simpl in Hjoin. now injection Hjoin as <-.
    - rewrite join_cons in Hjoin.
      destruct (join_step resources a) as [new|] eqn:Hstep; [|discriminate].
      destruct (join rest resources) as [more|]; [|discriminate].
      injection Hjoin as <-. rewrite List.map_app, (IH more eq_refl).
      apply join_step_matched in Hstep. simpl.
      destruct (matched resources a) eqn:Hm; [|now subst new].
      unfold matched in Hm.
      destruct (find_resource resources a) as [r|]; [|discriminate].
      destruct (appRoles r) as [roles|]; [|discriminate].
      destruct (find_role roles a) as [role|]; [|discriminate].
      subst new. simpl. now rewrite source_of_enriched. }
  split; [exact Heq|]. rewrite Heq. apply filter_sublist.
Qed.

Lemma join_order_witness :
  List.map source_of
    [enriched (assignment guidR1 guidRole2 "Graph") writerRole;
     enriched (assignment guidR1 guidRole1 "Graph") readerRole]
  = List.filter (matched [resourceR2; resourceR1]) sampleAssignments /\
  sublist
    (List.map source_of
       [enriched (assignment guidR1 guidRole2 "Graph") writerRole;
        enriched (assignment guidR1 guidRole1 "Graph") readerRole])
    sampleAssignments.
Proof.
  apply (join_order sampleAssignments [resourceR2; resourceR1]).
  vm_compute. reflexivity.
Defined.

(** C5. An assignment whose [resourceId] is the [id] of no resource, or
    whose [appRoleId] is the [id] of no role of the resource found for it,
    yields no record and no error, and the join of a list that contains it
    is the join of the list without it: the same records, or the same
    failure. *)
Theorem join_omission (front back : list AppRoleAssignment) (a : AppRoleAssignment)
    (resources : list ServicePrincipal) :
  (find_resource resources a = None \/
   exists resource roles,
     find_resource resources a = Some resource /\
     appRoles resource = Some roles /\
     find_role roles a = None) ->
  join [a] resources = Ok [] /\
  join (front ++ a :: back) resources = join (front ++ back) resources.
Proof.
  intros Hmiss.
  assert (Hstep : join_step resources a = Ok []).
  { unfold join_step. destruct Hmiss as [-> | (r & roles & -> & -> & ->)]; reflexivity. }
  split.
  - now rewrite join_cons, Hstep.
  - rewrite !join_app, join_cons, Hstep.
    destruct (join front resources); [|reflexivity].
    now destruct (join back resources).
Qed.

Lemma join_omission_witness :
  join [assignment guidR2 guidRole2 "Vault"] [resourceR1; resourceR2] = Ok [] /\
  join ([assignment guidR1 guidRole2 "Graph"] ++
        assignment guidR2 guidRole2 "Vault" :: [assignment guidR1 guidRole1 "Graph"])
       [resourceR1; resourceR2]
  = join ([assignment guidR1 guidRole2 "Graph"] ++ [assignment guidR1 guidRole1 "Graph"])
         [resourceR1; resourceR2].
Proof.
  apply (join_omission [assignment guidR1 guidRole2 "Graph"]
           [assignment guidR1 guidRole1 "Graph"]
           (assignment guidR2 guidRole2 "Vault") [resourceR1; resourceR2]).
  right. exists resourceR2, [readerRole]. vm_compute. repeat split.
Defined.

(** * Properties of the locator and of the fan-out *)

Lemma push_tasks_run resource directory (resourceIds : list jsval) :
  forall tasks s,
    push_tasks resource directory resourceIds tasks s =
    ({| requests := requests s ++ List.map (resource_url resource) resourceIds;
        logged := logged s |},
     Ok (tasks ++ List.map (fun x => get_servicePrincipal directory (resource_url resource x))
                    resourceIds)).
Proof.
  induction resourceIds as [|x rest IH]; intros tasks s.
  - simpl. unfold ret. rewrite !app_nil_r. now destruct s.
  - simpl. unfold bind, getServicePrincipal, request_get. rewrite IH. simpl.
    unfold resource_url. now rewrite <- !app_assoc.
Qed.

Lemma rejections_nil {A} (tasks : list (result A)) :
  rejections tasks = [] <-> forall t, In t tasks -> is_ok t = true.
Proof.
  induction tasks as [|[a|e] rest IH]; simpl.
  - split; [intros _ t [] | reflexivity].
  - rewrite IH. split.
    + intros H t [<-|Ht]; [reflexivity | now apply H].
    + intros H t Ht. apply H. now right.
  - split; [discriminate|]. intros H. specialize (H (Err e) (or_introl eq_refl)). discriminate.
Qed.

Lemma rejections_In {A} (tasks : list (result A)) e :
  In e (rejections tasks) <-> In (Err e) tasks.
Proof.
  induction tasks as [|[a|e'] rest IH]; simpl.
  - reflexivity.
  - rewrite IH. split; [now right | intros [H|H]; [discriminate | exact H]].
  - rewrite IH. split; (intros [H|H]; [left; congruence | now right]).
Qed.

Lemma Promise_all_fulfilled {A} race (tasks : list (result A)) :
  (forall t, In t tasks -> is_ok t = true) ->
  Promise_all race tasks = Ok (fulfilled tasks) /\ tasks = List.map Ok (fulfilled tasks).
Proof.
  intros H. unfold Promise_all. rewrite (proj2 (rejections_nil tasks) H). split; [reflexivity|].
  induction tasks as [|[a|e] rest IH]; simpl.
  - reflexivity.
  - f_equal. apply IH. intros t Ht. apply H. now right.
  - specialize (H (Err e) (or_introl eq_refl)). discriminate.
Qed.

Lemma Promise_all_rejected {A} race (tasks : list (result A)) t :
  In t tasks -> is_ok t = false ->
  exists e, In (Err e) tasks /\ Promise_all race tasks = Err e.
Proof.
  intros Hin Hko. unfold Promise_all.
  destruct (rejections tasks) as [|e es] eqn:Hrej.
  - rewrite (proj1 (rejections_nil tasks) Hrej t Hin) in Hko. discriminate.
  - exists (List.nth (race mod S (length es)) (e :: es) e). split; [|reflexivity].
    apply rejections_In. rewrite Hrej. apply nth_In.
    change (length (e :: es)) with (S (length es)).
    apply Nat.mod_upper_bound. discriminate.
Qed.

Lemma byFilter_keeps_log resource encode directory o s :
  logged (fst (getAppRoleAssignments_byFilter resource encode directory o s)) = logged s.
Proof.
  unfold getAppRoleAssignments_byFilter, getServicePrincipalForApp, bind, request_get. simpl.
  destruct (get_servicePrincipals directory _) as [[[|first more]]|e]; reflexivity.
Qed.

Lemma locator_keeps_log resource encode directory o s :
  logged (fst (getAppRoleAssignments resource encode directory o s)) = logged s.
Proof.
  unfold getAppRoleAssignments.
  destruct (appObjectId o) as [spId|]; [|apply byFilter_keeps_log].
  destruct (truthy (Some spId)); [|apply byFilter_keeps_log].
  unfold getSPAppRoleAssignments, bind, request_get. simpl.
  destruct (get_appRoleAssignments directory _) as [[[|a more]]|e]; reflexivity.
Qed.

Lemma fetched_resourceIds resource directory assignments :
  List.map (fun x => get_servicePrincipal directory (resource_url resource x))
    (List.map resourceId assignments)
  = fetched resource directory assignments.
Proof. unfold fetched. now rewrite List.map_map. Qed.

(** C6. Once the locator has answered with a list of assignments, the action
    requests one resource per entry of the list, in the order of the list
    and with repetitions, whatever the answers are.  If one of these fetches
    is rejected, nothing is logged and the action fails with what the
    handler makes of the rejection of one of the fetches.  If all are
    fulfilled, the join runs on their values, and its records are logged. *)
Theorem fan_out_all_or_nothing resource encode handle directory race
    (o : Options) (s s1 : State) (assignments : list AppRoleAssignment) :
  getAppRoleAssignments resource encode directory o s = (s1, Ok (Some assignments)) ->
  let run := commandAction resource encode handle directory race o s in
  let tasks := fetched resource directory assignments in
  requests (fst run)
    = requests s1 ++ List.map (fun a => resource_url resource (resourceId a)) assignments /\
  (forall t, In t tasks -> is_ok t = false ->
     logged (fst run) = logged s /\
     exists e, In (Err e) tasks /\ snd run = Err (handle e)) /\
  ((forall t, In t tasks -> is_ok t = true) ->
     tasks = List.map Ok (fulfilled tasks) /\
     match join assignments (fulfilled tasks) with
     | Ok out => logged (fst run) = logged s ++ [out] /\ snd run = Ok tt
     | Err e => logged (fst run) = logged s /\ snd run = Err (handle e)
     end).
Proof.
  intros Hloc run tasks.
  assert (Hlog : logged s1 = logged s).
  { pose proof (locator_keeps_log resource encode directory o s) as H.
    now rewrite Hloc in H. }
  assert (Hrun : run =
    match Promise_all race tasks with
    | Ok resources =>
        match join assignments resources with
        | Ok out =>
            ({| requests := requests s1 ++
                  List.map (resource_url resource) (List.map resourceId assignments);
                logged := logged s1 ++ [out] |}, Ok tt)
        | Err e =>
            ({| requests := requests s1 ++
                  List.map (resource_url resource) (List.map resourceId assignments);
                logged := logged s1 |}, Err (handle e))
        end
    | Err e =>
        ({| requests := requests s1 ++
              List.map (resource_url resource) (List.map resourceId assignments);
            logged := logged s1 |}, Err (handle e))
    end).
  { subst run. unfold commandAction, try_catch, bind. rewrite Hloc.
    rewrite push_tasks_run. simpl. rewrite fetched_resourceIds. fold tasks.
    destruct (Promise_all race tasks) as [resources|e]; simpl; [|reflexivity].
    destruct (join assignments resources) as [out|e]; reflexivity. }
  split; [|split].
  - rewrite Hrun, List.map_map.
    destruct (Promise_all race tasks) as [resources|]; [|reflexivity].
    destruct (join assignments resources); reflexivity.
  - intros t Hin Hko.
    destruct (Promise_all_rejected race tasks t Hin Hko) as (e & He & Hall).
    rewrite Hrun, Hall. simpl. split; [exact Hlog | now exists e].
  - intros Hall. destruct (Promise_all_fulfilled race tasks Hall) as [Hp Hmap].
    split; [exact Hmap|]. rewrite Hrun, Hp.
    destruct (join assignments (fulfilled tasks)); simpl; rewrite Hlog; now split.
Qed.

Lemma fan_out_all_or_nothing_witness :
  let run := commandAction graph sample_encode sample_handle flakyDirectory 1
               (byObjectId guid1) initial in
  let tasks := fetched graph flakyDirectory sampleAssignments in
  requests (fst run)
    = [graph +:+ "/v1.0/servicePrincipals/" +:+ guid1 +:+ "/appRoleAssignments"] ++
      List.map (fun a => resource_url graph (resourceId a)) sampleAssignments /\
  (forall t, In t tasks -> is_ok t = false ->
     logged (fst run) = [] /\
     exists e, In (Err e) tasks /\ snd run = Err (sample_handle e)) /\
  ((forall t, In t tasks -> is_ok t = true) ->
     tasks = List.map Ok (fulfilled tasks) /\
     match join sampleAssignments (fulfilled tasks) with
     | Ok out => logged (fst run) = [] ++ [out] /\ snd run = Ok tt
     | Err e => logged (fst run) = [] /\ snd run = Err (sample_handle e)
     end).
Proof.
  apply (fan_out_all_or_nothing graph sample_encode sample_handle flakyDirectory 1
           (byObjectId guid1) initial
           {| requests := [graph +:+ "/v1.0/servicePrincipals/" +:+ guid1 +:+ "/appRoleAssignments"];
              logged := [] |}
           sampleAssignments).
  vm_compute. reflexivity.
Defined.

(** C7. With no usable [appObjectId], when the filtered query answers with
    two service principals or more, the locator makes that one request and
    returns the [appRoleAssignments] of the first of them; it does not
    throw. *)
Theorem first_service_principal_wins resource encode directory
    (o : Options) (s : State) (first second : ServicePrincipal)
    (more : list ServicePrincipal) :
  truthy (appObjectId o) = false ->
  get_servicePrincipals directory (filter_url resource (spMatchQuery encode o))
    = Ok (mkCollection (first :: second :: more)) ->
  getAppRoleAssignments resource encode directory o s
    = ({| requests := requests s ++ [filter_url resource (spMatchQuery encode o)];
          logged := logged s |},
       Ok (appRoleAssignments first)).
Proof.
  intros Hfalsy Hresp.
  assert (Hby : getAppRoleAssignments_byFilter resource encode directory o s
    = ({| requests := requests s ++ [filter_url resource (spMatchQuery encode o)];
          logged := logged s |},
       Ok (appRoleAssignments first))).
  { unfold getAppRoleAssignments_byFilter, getServicePrincipalForApp, bind, request_get.
    simpl. unfold filter_url in Hresp. rewrite Hresp. reflexivity. }
  unfold getAppRoleAssignments. destruct (appObjectId o) as [spId|]; [|exact Hby].
  rewrite Hfalsy. exact Hby.
Qed.

Lemma first_service_principal_wins_witness :
  getAppRoleAssignments graph sample_encode sampleDirectory (byDisplayName "Twins") initial
    = ({| requests := [] ++ [filter_url graph "displayName eq 'Twins'"]; logged := [] |},
       Ok (Some [assignment guidR1 guidRole2 "Graph"])).
Proof.
  apply (first_service_principal_wins graph sample_encode sampleDirectory
           (byDisplayName "Twins") initial
           (sampleApp (firstn 1 sampleAssignments)) (sampleApp []) []).
  - reflexivity.
  - vm_compute. reflexivity.
Defined.

(** C2. The application is found by its display name and has no app role
    assignment: the locator returns the empty list, no resource is fetched,
    the empty list of records is logged and the action succeeds; nothing is
    thrown.  The same empty answer reached through [appObjectId] is thrown
    as ["no app role assignments found"]. *)
Theorem zero_assignments_by_filter_not_reported :
  get_servicePrincipals sampleDirectory (filter_url graph "displayName eq 'Contoso'")
    = Ok (mkCollection [sampleApp []]) /\
  appRoleAssignments (sampleApp []) = Some [] /\
  getAppRoleAssignments graph sample_encode sampleDirectory (byDisplayName "Contoso") initial
    = ({| requests := [filter_url graph "displayName eq 'Contoso'"]; logged := [] |},
       Ok (Some [])) /\
  commandAction graph sample_encode sample_handle sampleDirectory 0
      (byDisplayName "Contoso") initial
    = ({| requests := [filter_url graph "displayName eq 'Contoso'"]; logged := [[]] |},
       Ok tt) /\
  commandAction graph sample_encode sample_handle sampleDirectory 0
      (byObjectId guid2) initial
    = ({| requests := [graph +:+ "/v1.0/servicePrincipals/" +:+ guid2 +:+ "/appRoleAssignments"];
          logged := [] |},
       Err (Thrown "no app role assignments found")).
Proof. vm_compute. repeat split. Qed.

(** Scenarios C and D of the spec: one assignment on [guidR1]; the role is in
    the catalog of the resource, or it is not. *)
Example scenario_C :
  join [assignment guidR1 guidRole1 "Graph"]
       [{| id := JString guidR1; appRoles := Some [readerRole]; appRoleAssignments := None |}]
  = Ok [enriched (assignment guidR1 guidRole1 "Graph") readerRole] /\
  e_roleName (enriched (assignment guidR1 guidRole1 "Graph") readerRole) = JString "Reader".
Proof. vm_compute. split; reflexivity. Qed.

Example scenario_D :
  join [assignment guidR1 guidRole1 "Graph"]
       [{| id := JString guidR1; appRoles := Some [writerRole]; appRoleAssignments := None |}]
  = Ok [].
Proof. reflexivity. Qed.

(** A resource without [appRoles] makes the callback throw. *)
Example join_without_catalog :
  join [assignment guidR1 guidRole1 "Graph"]
       [{| id := JString guidR1; appRoles := None; appRoleAssignments := None |}]
  = Err TypeError.
Proof. reflexivity. Qed.

(** The two messages of the locator. *)
Lemma by_objectId_empty_throws resource encode directory o s spId :
  appObjectId o = Some spId -> spId <> "" ->
  get_appRoleAssignments directory
    (resource +:+ "/v1.0/servicePrincipals/" +:+ spId +:+ "/appRoleAssignments")
    = Ok (mkCollection []) ->
  getAppRoleAssignments resource encode directory o s
  = ({| requests := requests s ++
          [resource +:+ "/v1.0/servicePrincipals/" +:+ spId +:+ "/appRoleAssignments"];
        logged := logged s |},
     Err (Thrown "no app role assignments found")).
Proof.
  intros Hid Hne Hresp. unfold getAppRoleAssignments. rewrite Hid.
  assert (Ht : truthy (Some spId) = true).
  { simpl. destruct (String.eqb_spec spId ""); [contradiction | reflexivity]. }
  rewrite Ht. unfold getSPAppRoleAssignments, bind, request_get. simpl.
  now rewrite Hresp.
Qed.

Lemma by_filter_empty_throws resource encode directory o s :
  truthy (appObjectId o) = false ->
  get_servicePrincipals directory (filter_url resource (spMatchQuery encode o))
    = Ok (mkCollection []) ->
  getAppRoleAssignments resource encode directory o s
  = ({| requests := requests s ++ [filter_url resource (spMatchQuery encode o)];
        logged := logged s |},
     Err (Thrown "app registration not found")).
Proof.
  intros Hfalsy Hresp.
  assert (Hby : getAppRoleAssignments_byFilter resource encode directory o s
    = ({| requests := requests s ++ [filter_url resource (spMatchQuery encode o)];
          logged := logged s |},
       Err (Thrown "app registration not found"))).
  { unfold getAppRoleAssignments_byFilter, getServicePrincipalForApp, bind, request_get.
    simpl. unfold filter_url in Hresp. now rewrite Hresp. }
  unfold getAppRoleAssignments. destruct (appObjectId o) as [spId|]; [|exact Hby].
  rewrite Hfalsy. exact Hby.
Qed.

(** A failure of the locator ends the action where it stands: no resource is
    requested after it and nothing is logged. *)
Lemma locator_failure_is_terminal resource encode handle directory race o s s1 e :
  getAppRoleAssignments resource encode directory o s = (s1, Err e) ->
  commandAction resource encode handle directory race o s = (s1, Err (handle e)).
Proof.
  intros H. unfold commandAction, try_catch, bind. now rewrite H.
Qed.

(** On the filter path an empty [appRoleAssignments] is returned as it is,
    for every directory. *)
Lemma by_filter_empty_assignments resource encode directory o s first more :
  truthy (appObjectId o) = false ->
  get_servicePrincipals directory (filter_url resource (spMatchQuery encode o))
    = Ok (mkCollection (first :: more)) ->
  appRoleAssignments first = Some [] ->
  snd (getAppRoleAssignments resource encode directory o s) = Ok (Some []).
Proof.
  intros Hfalsy Hresp Hnone.
  assert (Hby : snd (getAppRoleAssignments_byFilter resource encode directory o s)
                = Ok (Some [])).
  { unfold getAppRoleAssignments_byFilter, getServicePrincipalForApp, bind, request_get.
    simpl. unfold filter_url in Hresp. rewrite Hresp. simpl. now rewrite Hnone. }
  unfold getAppRoleAssignments. destruct (appObjectId o) as [spId|]; [|exact Hby].
  rewrite Hfalsy. exact Hby.
Qed.

(** * Properties of the validation *)

Lemma truthy_Some v : truthy (Some v) = true <-> v <> "".
Proof.
  simpl. destruct (String.eqb_spec v ""); simpl; split; congruence.
Qed.

Lemma validators_appId isValidGuid o v :
  appId o = Some v -> v <> "" -> isValidGuid v = false ->
  validators isValidGuid o = inl (v +:+ " is not a valid GUID").
Proof.
  intros Hv Hne Hbad. unfold validators. rewrite Hv.
  rewrite (proj2 (truthy_Some v) Hne), Hbad. reflexivity.
Qed.

Lemma validators_appId_skipped isValidGuid o :
  ~ reported isValidGuid (appId o) ->
  validators isValidGuid o =
  match appObjectId o with
  | Some v => if truthy (Some v) && negb (isValidGuid v)
              then inl (v +:+ " is not a valid GUID") else inr true
  | None => inr true
  end.
Proof.
  intros Hok. unfold validators. destruct (appId o) as [v|]; [|reflexivity].
  destruct (truthy (Some v)) eqn:Ht; [|reflexivity].
  destruct (isValidGuid v) eqn:Hg; [reflexivity|].
  exfalso. apply Hok. exists v. repeat split; [now apply truthy_Some | exact Hg].
Qed.

Lemma execute_invalid resource encode isValidGuid handle directory race o s message :
  validators isValidGuid o = inl message ->
  execute resource encode isValidGuid handle directory race o s = (s, OptionSetViolated) \/
  execute resource encode isValidGuid handle directory race o s = (s, ValidationFailed message).
Proof.
  intros H. unfold execute. destruct (validateOptionSets o); simpl; [right | now left].
  now rewrite H.
Qed.

(** C8, as amended.  When [appId] or [appObjectId] is a non-empty text that
    is not a GUID, the validator answers ["<value> is not a valid GUID"]
    for such a value ([appId] first), and the run ends in the state it
    started in, without a request.  When neither is such a text (each is
    absent, empty or a GUID), the validator answers [true]. *)
Theorem validators_guid (isValidGuid : string -> bool) (o : Options) :
  (reported isValidGuid (appId o) \/ reported isValidGuid (appObjectId o) ->
   exists v,
     (appId o = Some v \/ appObjectId o = Some v) /\ v <> "" /\ isValidGuid v = false /\
     validators isValidGuid o = inl (v +:+ " is not a valid GUID") /\
     forall resource encode handle directory race s,
       execute resource encode isValidGuid handle directory race o s = (s, OptionSetViolated) \/
       execute resource encode isValidGuid handle directory race o s
         = (s, ValidationFailed (v +:+ " is not a valid GUID"))) /\
  (~ reported isValidGuid (appId o) -> ~ reported isValidGuid (appObjectId o) ->
   validators isValidGuid o = inr true).
Proof.
  split.
  - intros Hbad.
    assert (Hv : exists v, (appId o = Some v \/ appObjectId o = Some v) /\ v <> "" /\
                   isValidGuid v = false /\
                   validators isValidGuid o = inl (v +:+ " is not a valid GUID")).
    { destruct (appId o) as [a|] eqn:Ha.
      - destruct (truthy (Some a) && negb (isValidGuid a)) eqn:Hchk.
        + apply andb_prop in Hchk as [Ht Hg]. apply truthy_Some in Ht.
          apply negb_true_iff in Hg. exists a. repeat split; auto.
          now apply validators_appId.
        + assert (Hskip : ~ reported isValidGuid (appId o)).
          { intros (v & Hv & Hne & Hg). rewrite Ha in Hv. injection Hv as ->.
            rewrite (proj2 (truthy_Some v) Hne), Hg in Hchk. discriminate. }
          destruct Hbad as [Hbad|(v & Hv & Hne & Hg)]; [rewrite <- Ha in Hbad; contradiction|].
          exists v. repeat split; auto.
          rewrite (validators_appId_skipped _ _ Hskip), Hv.
          now rewrite (proj2 (truthy_Some v) Hne), Hg.
      - assert (Hskip : ~ reported isValidGuid (appId o)).
        { intros (v & Hv & _). rewrite Ha in Hv. discriminate. }
        destruct Hbad as [(v & Hv & _)|(v & Hv & Hne & Hg)]; [discriminate|].
        exists v. repeat split; auto.
        rewrite (validators_appId_skipped _ _ Hskip), Hv.
        now rewrite (proj2 (truthy_Some v) Hne), Hg. }
    destruct Hv as (v & Hsrc & Hne & Hg & Hmsg).
    exists v. repeat split; auto. intros. now apply execute_invalid.
  - intros Ha Hb. rewrite (validators_appId_skipped _ _ Ha).
    destruct (appObjectId o) as [v|] eqn:Hv; [|reflexivity].
    destruct (truthy (Some v)) eqn:Ht; [|reflexivity].
    destruct (isValidGuid v) eqn:Hg; [reflexivity|].
    exfalso. apply Hb. exists v. repeat split; [now apply truthy_Some | exact Hg].
Qed.

Lemma validators_guid_witness :
  (exists v,
     (appId (byAppId "not-a-guid") = Some v \/ appObjectId (byAppId "not-a-guid") = Some v) /\
     v <> "" /\ validation_isValidGuid v = false /\
     validators validation_isValidGuid (byAppId "not-a-guid")
       = inl (v +:+ " is not a valid GUID") /\
     forall resource encode handle directory race s,
       execute resource encode validation_isValidGuid handle directory race
         (byAppId "not-a-guid") s = (s, OptionSetViolated) \/
       execute resource encode validation_isValidGuid handle directory race
         (byAppId "not-a-guid") s = (s, ValidationFailed (v +:+ " is not a valid GUID"))) /\
  validators validation_isValidGuid (byObjectId guid1) = inr true.
Proof.
  split.
  - apply (proj1 (validators_guid validation_isValidGuid (byAppId "not-a-guid"))).
    left. exists "not-a-guid".
    split; [reflexivity | split; [discriminate | vm_compute; reflexivity]].
  - apply (proj2 (validators_guid validation_isValidGuid (byObjectId guid1))).
    + intros (v & Hv & _). discriminate.
    + intros (v & Hv & _ & Hg). injection Hv as <-. vm_compute in Hg. discriminate.
Defined.

(** C8 as stated fails on the empty text: [--appId ""] supplies a value that
    is not a GUID, the validator answers [true], and the run goes on to
    query the directory. *)
Lemma empty_appId_passes_validation :
  appId (byAppId "") = Some "" /\
  validation_isValidGuid "" = false /\
  validators validation_isValidGuid (byAppId "") = inr true /\
  execute graph sample_encode validation_isValidGuid sample_handle sampleDirectory 0
      (byAppId "") initial
    = ({| requests := [filter_url graph "displayName eq 'undefined'"]; logged := [] |},
       Failed (Thrown "app registration not found")).
Proof. vm_compute. repeat split. Qed.

(** C10. An [appId] or [appObjectId] given as the empty text is never
    checked: the validator answers what it answers when the option is
    absent, and [true] when the empty option is the only one given, although
    the empty text is not a GUID. *)
Theorem validators_skip_empty (isValidGuid : string -> bool)
    (a n i : option string) :
  validators isValidGuid {| appId := Some ""; appDisplayName := n; appObjectId := i |}
    = validators isValidGuid {| appId := None; appDisplayName := n; appObjectId := i |} /\
  validators isValidGuid {| appId := a; appDisplayName := n; appObjectId := Some "" |}
    = validators isValidGuid {| appId := a; appDisplayName := n; appObjectId := None |} /\
  validators isValidGuid (byAppId "") = inr true /\
  validators isValidGuid (byObjectId "") = inr true /\
  validators isValidGuid {| appId := Some ""; appDisplayName := n; appObjectId := Some "" |}
    = inr true /\
  validation_isValidGuid "" = false.
Proof.
  unfold validators; simpl. repeat split.
Qed.

(** C9.  The option set names the three selectors; its check passes exactly
    when one of them is supplied, and fails for none, two or three.  When it
    fails the run ends in the state it started in, without a request. *)
Theorem option_set_exclusive (a n i : option string) :
  let o := {| appId := a; appDisplayName := n; appObjectId := i |} in
  optionSets = [ {| options := ["appId"; "appObjectId"; "appDisplayName"] |} ] /\
  validateOptionSets o =
    (match a, n, i with
     | Some _, None, None | None, Some _, None | None, None, Some _ => true
     | _, _, _ => false
     end) /\
  forall resource encode isValidGuid handle directory race s,
    validateOptionSets o = false ->
    execute resource encode isValidGuid handle directory race o s = (s, OptionSetViolated).
Proof.
  intros o. split; [reflexivity|]. split.
  - subst o. destruct a, n, i; reflexivity.
  - intros resource encode isValidGuid handle directory race s Hset.
    unfold execute. now rewrite Hset.
Qed.

Lemma option_set_exclusive_witness :
  validateOptionSets {| appId := Some guid2; appDisplayName := None; appObjectId := Some guid1 |}
    = false /\
  execute graph sample_encode validation_isValidGuid sample_handle sampleDirectory 0
    {| appId := Some guid2; appDisplayName := None; appObjectId := Some guid1 |} initial
    = (initial, OptionSetViolated).
Proof.
  split.
  - apply (proj1 (proj2 (option_set_exclusive (Some guid2) None (Some guid1)))).
  - apply (proj2 (proj2 (option_set_exclusive (Some guid2) None (Some guid1)))).
    reflexivity.
Defined.

(** * Fetching each resource once *)

Section Deduplication.

Variable resource : string.
Variable directory : Directory.

Let fetch (x : jsval) : result ServicePrincipal :=
  get_servicePrincipal directory (resource_url resource x).

(** The directory answers a fetch with the service principal it was asked
    for. *)
Hypothesis fetch_id : forall x sp, fetch x = Ok sp -> id sp = x.

Lemma distinct_resourceIds_In assignments x :
  In x (distinct_resourceIds assignments) <-> In x (List.map resourceId assignments).
Proof.
  unfold distinct_resourceIds.
  rewrite <- !list_elem_of_In, elem_of_elements, elem_of_list_to_set. reflexivity.
Qed.

Lemma find_fetched_In a sp : forall xs,
  (forall x, In x xs -> is_ok (fetch x) = true) ->
  In (resourceId a) xs -> fetch (resourceId a) = Ok sp ->
  find_resource (fulfilled (List.map fetch xs)) a = Some sp.
Proof.
  induction xs as [|x xs IH]; intros Hall Hin Hsp; [destruct Hin|].
  simpl. destruct (fetch x) as [spx|e] eqn:Hx.
  - unfold find_resource. simpl. rewrite (fetch_id _ _ Hx).
    unfold strict_eq. case_bool_decide as Heq.
    + subst x. congruence.
    + apply IH; [intros y Hy; apply Hall; now right | | exact Hsp].
      destruct Hin as [Hin|Hin]; [contradiction | exact Hin].
  - specialize (Hall x (or_introl eq_refl)). rewrite Hx in Hall. discriminate.
Qed.

Lemma lookup_fetched_In a sp : forall xs,
  (forall x, In x xs -> is_ok (fetch x) = true) ->
  In (resourceId a) xs -> fetch (resourceId a) = Ok sp ->
  build_lookup xs (fulfilled (List.map fetch xs)) !! resourceId a = Some sp.
Proof.
  unfold build_lookup.
  induction xs as [|x xs IH]; intros Hall Hin Hsp; [destruct Hin|].
  simpl. destruct (fetch x) as [spx|e] eqn:Hx.
  - simpl. destruct (decide (x = resourceId a)) as [->|Hne].
    + rewrite lookup_insert_eq. congruence.
    + rewrite lookup_insert_ne by exact Hne.
      apply IH; [intros y Hy; apply Hall; now right | | exact Hsp].
      destruct Hin as [Hin|Hin]; [contradiction | exact Hin].
  - specialize (Hall x (or_introl eq_refl)). rewrite Hx in Hall. discriminate.
Qed.

Lemma loops_agree resources lookup : forall assignments,
  (forall a, In a assignments -> find_resource resources a = lookup !! resourceId a) ->
  forall results,
    join_loop resources assignments results = lookup_join_loop lookup assignments results.
Proof.
  induction assignments as [|a rest IH]; intros Hsame results; [reflexivity|].
  simpl. rewrite (Hsame a (or_introl eq_refl)).
  assert (Hrest : forall b, In b rest -> find_resource resources b = lookup !! resourceId b)
    by (intros b Hb; apply Hsame; now right).
  destruct (lookup !! resourceId a) as [r|]; [|now apply IH].
  destruct (appRoles r) as [roles|]; [|reflexivity].
  destruct (find_role roles a); now apply IH.
Qed.

Lemma fetched_ok_iff assignments :
  (forall t, In t (fetched resource directory assignments) -> is_ok t = true) <->
  (forall x, In x (List.map resourceId assignments) -> is_ok (fetch x) = true).
Proof.
  unfold fetched. split.
  - intros H x Hx. apply in_map_iff in Hx as (a & <- & Ha).
    apply H. apply in_map_iff. now exists a.
  - intros H t Ht. apply in_map_iff in Ht as (a & <- & Ha).
    apply H. now apply in_map.
Qed.

(** With every fetch fulfilled, the join over the resources fetched per
    assignment and the join through the map of the resources fetched once
    give the same result. *)
Lemma deduplicated_join assignments :
  (forall t, In t (fetched resource directory assignments) -> is_ok t = true) ->
  join assignments (fulfilled (fetched resource directory assignments))
  = lookup_join assignments
      (build_lookup (distinct_resourceIds assignments)
         (fulfilled (List.map fetch (distinct_resourceIds assignments)))).
Proof.
  intros Hall'. pose proof (proj1 (fetched_ok_iff assignments) Hall') as Hall.
  clear Hall'. unfold join, lookup_join. apply loops_agree. intros a Ha.
  assert (Hin : In (resourceId a) (List.map resourceId assignments)) by now apply in_map.
  destruct (fetch (resourceId a)) as [sp|e] eqn:Hsp.
  - pose proof (find_fetched_In a sp _ Hall Hin Hsp) as Hfind.
    unfold fetch in Hfind. rewrite fetched_resourceIds in Hfind. rewrite Hfind.
    symmetry. apply lookup_fetched_In; [|now apply distinct_resourceIds_In | exact Hsp].
    intros x Hx. apply Hall. now apply distinct_resourceIds_In.
  - specialize (Hall _ Hin). rewrite Hsp in Hall. discriminate.
Qed.

End Deduplication.

Lemma Promise_all_cases {A} race (tasks : list (result A)) :
  ((forall t, In t tasks -> is_ok t = true) /\ Promise_all race tasks = Ok (fulfilled tasks)) \/
  (exists e, In (Err e) tasks /\ Promise_all race tasks = Err e).
Proof.
  destruct (rejections tasks) as [|e es] eqn:Hrej.
  - left. assert (Hall := proj1 (rejections_nil tasks) Hrej).
    split; [exact Hall | now apply Promise_all_fulfilled].
  - right. apply (Promise_all_rejected race tasks (Err e)); [|reflexivity].
    apply rejections_In. rewrite Hrej. now left.
Qed.

Lemma deduplicated_settlements resource directory race race'
    (assignments : list AppRoleAssignment) :
  (forall x sp, get_servicePrincipal directory (resource_url resource x) = Ok sp -> id sp = x) ->
  match Promise_all race (fetched resource directory assignments),
        Promise_all race'
          (List.map (fun x => get_servicePrincipal directory (resource_url resource x))
             (distinct_resourceIds assignments)) with
  | Ok resources, Ok once =>
      join assignments resources
      = lookup_join assignments (build_lookup (distinct_resourceIds assignments) once)
  | Err _, Err _ => True
  | _, _ => False
  end.
Proof.
  intros Hid.
  set (fetch := fun x => get_servicePrincipal directory (resource_url resource x)).
  destruct (Promise_all_cases race (fetched resource directory assignments))
    as [[Hall ->]|(e & He & ->)].
  - assert (Hall' : forall t, In t (List.map fetch (distinct_resourceIds assignments)) ->
                              is_ok t = true).
    { intros t Ht. apply in_map_iff in Ht as (x & <- & Hx).
      apply distinct_resourceIds_In in Hx.
      now apply (proj1 (fetched_ok_iff resource directory assignments) Hall). }
    destruct (Promise_all_fulfilled race' _ Hall') as [-> _].
    now apply deduplicated_join.
  - assert (Hin : In (Err e) (List.map fetch (distinct_resourceIds assignments))).
    { unfold fetched in He. apply in_map_iff in He as (a & Ha & Hin).
      apply in_map_iff. exists (resourceId a). split; [exact Ha|].
      apply distinct_resourceIds_In. now apply in_map. }
    destruct (Promise_all_rejected race' _ (Err e) Hin eq_refl) as (e' & _ & ->).
    exact I.
Qed.

(** C3. Let the directory answer each fetch with the service principal whose
    [id] was asked for.  Then for every list of assignments the two ways of
    resolving settle alike: either both sets of fetches are fulfilled, and
    the linear-search join over one resource per assignment gives exactly
    what the join through the map of the resources fetched once gives, or a
    fetch is rejected in both.  Run as a command, the two variants log the
    same records and succeed or fail together. *)
Theorem deduplicated_fetch_same_output resource encode handle directory race race' :
  (forall x sp, get_servicePrincipal directory (resource_url resource x) = Ok sp -> id sp = x) ->
  (forall assignments : list AppRoleAssignment,
     match Promise_all race (fetched resource directory assignments),
           Promise_all race'
             (List.map (fun x => get_servicePrincipal directory (resource_url resource x))
                (distinct_resourceIds assignments)) with
     | Ok resources, Ok once =>
         join assignments resources
         = lookup_join assignments (build_lookup (distinct_resourceIds assignments) once)
     | Err _, Err _ => True
     | _, _ => False
     end) /\
  (forall (o : Options) (s : State),
     logged (fst (commandAction resource encode handle directory race o s))
     = logged (fst (commandAction_deduplicated resource encode handle directory race' o s)) /\
     is_ok (snd (commandAction resource encode handle directory race o s))
     = is_ok (snd (commandAction_deduplicated resource encode handle directory race' o s))).
Proof.
  intros Hid. split; [intros; now apply deduplicated_settlements|].
  intros o s. unfold commandAction, commandAction_deduplicated, try_catch, bind.
  destruct (getAppRoleAssignments resource encode directory o s) as [s1 [[assignments|]|e]];
    [|split; reflexivity..].
  rewrite !push_tasks_run. simpl. rewrite fetched_resourceIds.
  pose proof (deduplicated_settlements resource directory race race' assignments Hid) as Hsame.
  destruct (Promise_all race (fetched resource directory assignments)) as [resources|e];
    destruct (Promise_all race' _) as [once|e']; try contradiction; simpl.
  - rewrite Hsame.
    destruct (lookup_join assignments _) as [out|e]; simpl; split; reflexivity.
  - split; reflexivity.
Qed.

Lemma append_cancel (prefix a b : string) : prefix +:+ a = prefix +:+ b -> a = b.
Proof.
  induction prefix as [|c prefix IH]; simpl; intros H; [exact H|].
  injection H as H. now apply IH.
Qed.

Lemma sampleDirectory_fetch_id x sp :
  get_servicePrincipal sampleDirectory (resource_url graph x) = Ok sp -> id sp = x.
Proof.
  unfold sampleDirectory, resource_url. cbv beta iota delta [get_servicePrincipal].
  repeat match goal with
  | |- context [String.eqb ?u ?v] => destruct (String.eqb_spec u v) as [Hurl|_]
  end; intros Hsp; try discriminate; injection Hsp as <-;
  do 2 apply append_cancel in Hurl;
  (destruct x as [| |t]; simpl in *; [discriminate..|now subst t]).
Qed.

Lemma deduplicated_fetch_same_output_witness :
  (forall assignments : list AppRoleAssignment,
     match Promise_all 0 (fetched graph sampleDirectory assignments),
           Promise_all 0
             (List.map (fun x => get_servicePrincipal sampleDirectory (resource_url graph x))
                (distinct_resourceIds assignments)) with
     | Ok resources, Ok once =>
         join assignments resources
         = lookup_join assignments (build_lookup (distinct_resourceIds assignments) once)
     | Err _, Err _ => True
     | _, _ => False
     end) /\
  (forall (o : Options) (s : State),
     logged (fst (commandAction graph sample_encode sample_handle sampleDirectory 0 o s))
     = logged (fst (commandAction_deduplicated graph sample_encode sample_handle
                      sampleDirectory 0 o s)) /\
     is_ok (snd (commandAction graph sample_encode sample_handle sampleDirectory 0 o s))
     = is_ok (snd (commandAction_deduplicated graph sample_encode sample_handle
                     sampleDirectory 0 o s))).
Proof.
  apply (deduplicated_fetch_same_output graph sample_encode sample_handle sampleDirectory 0 0).
  exact sampleDirectory_fetch_id.
Defined.

(** * Further properties of the join *)

Lemma join_nil_assignments resources : join [] resources = Ok [].
Proof. reflexivity. Qed.

Lemma join_step_no_resources a : join_step [] a = Ok [].
Proof. reflexivity. Qed.

(** The join reads [resources] only through the search for a resource. *)
Lemma join_loop_ext resources resources' : forall assignments,
  (forall a, In a assignments -> find_resource resources a = find_resource resources' a) ->
  forall results,
    join_loop resources assignments results = join_loop resources' assignments results.
Proof.
  induction assignments as [|a rest IH]; intros Hsame results; [reflexivity|].
  simpl. rewrite (Hsame a (or_introl eq_refl)).
  assert (Hrest : forall b, In b rest -> find_resource resources b = find_resource resources' b)
    by (intros b Hb; apply Hsame; now right).
  destruct (find_resource resources' a) as [r|]; [|now apply IH].
  destruct (appRoles r) as [roles|]; [|reflexivity].
  destruct (find_role roles a); now apply IH.
Qed.

Lemma join_sources assignments resources : forall out,
  join assignments resources = Ok out ->
  forall e, In e out -> In (source_of e) assignments.
Proof.
  induction assignments as [|a rest IH]; intros out Hjoin e He.
  - unfold join in Hjoin. simpl in Hjoin. injection Hjoin as <-. destruct He.
  - rewrite join_cons in Hjoin.
    destruct (join_step resources a) as [new|] eqn:Hstep; [|discriminate].
    destruct (join rest resources) as [more|]; [|discriminate].
    injection Hjoin as <-. apply in_app_or in He as [He|He].
    + left. unfold join_step in Hstep.
      destruct (find_resource resources a) as [r|]; [|injection Hstep as <-; destruct He].
      destruct (appRoles r) as [roles|]; [|discriminate].
      destruct (find_role roles a) as [role|]; injection Hstep as <-; [|destruct He].
      destruct He as [<-|[]]. symmetry. apply source_of_enriched.
    + right. now apply (IH more).
Qed.

(** X1. Without resources every assignment is dropped: the join of any list
    of assignments with the empty list of resources is the empty list of
    records, never a failure; so is the join of no assignment with any
    resources. *)
Theorem join_empty (assignments : list AppRoleAssignment)
    (resources : list ServicePrincipal) :
  join assignments [] = Ok [] /\ join [] resources = Ok [].
Proof.
  split; [|reflexivity].
  induction assignments as [|a rest IH]; [reflexivity|].
  now rewrite join_cons, join_step_no_resources, IH.
Qed.

(** X2. The join of two lists of assignments put end to end is the records
    of the first followed by the records of the second; it fails when the
    join of either fails, with the failure of the first when both do.  In
    particular an assignment that occurs twice is emitted twice. *)
Theorem join_concat (front back : list AppRoleAssignment)
    (resources : list ServicePrincipal) :
  join (front ++ back) resources =
  match join front resources with
  | Ok out1 =>
      match join back resources with
      | Ok out2 => Ok (out1 ++ out2)
      | Err e => Err e
      end
  | Err e => Err e
  end.
Proof. apply join_app. Qed.

(** X3. The join fails exactly when some assignment finds a resource that
    has no [appRoles]; the failure is then the [TypeError] of reading
    [.find] on [undefined]. *)
Theorem join_failure_iff (assignments : list AppRoleAssignment)
    (resources : list ServicePrincipal) (e : error) :
  join assignments resources = Err e <->
  e = TypeError /\
  exists a resource,
    In a assignments /\ find_resource resources a = Some resource /\
    appRoles resource = None.
Proof.
  induction assignments as [|a rest IH].
  - split; [discriminate | intros (_ & a & r & [] & _)].
  - rewrite join_cons. unfold join_step.
    destruct (find_resource resources a) as [r|] eqn:Hr.
    + destruct (appRoles r) as [roles|] eqn:Hroles.
      * assert (Hskip : forall new : list EnrichedAssignment,
                  match join rest resources with
                  | Ok more => Ok (new ++ more)
                  | Err e0 => Err e0
                  end = Err e <-> join rest resources = Err e).
        { intros new. destruct (join rest resources); split; congruence. }
        destruct (find_role roles a); rewrite Hskip, IH; split;
          intros (-> & b & rb & Hb & Hfind & Hnone); split; try reflexivity.
        all: try (exists b, rb; split; [now right | now split]).
        all: destruct Hb as [<-|Hb];
          [rewrite Hr in Hfind; injection Hfind as <-; congruence
          | exists b, rb; now repeat split].
      * split.
        -- intros H. injection H as <-. split; [reflexivity|].
           exists a, r. repeat split; auto using in_eq.
        -- intros (-> & _). reflexivity.
    + assert (Hskip : match join rest resources with
                      | Ok more => Ok ([] ++ more)
                      | Err e0 => Err e0
                      end = Err e <-> join rest resources = Err e).
      { destruct (join rest resources); split; congruence. }
      rewrite Hskip, IH. split; intros (-> & b & rb & Hb & Hfind & Hnone);
        split; try reflexivity.
      * exists b, rb. split; [now right | now split].
      * destruct Hb as [<-|Hb]; [congruence | exists b, rb; now repeat split].
Qed.

Lemma find_over_app {A} (p : A -> bool) (l1 l2 : list A) :
  List.find p (l1 ++ l2) =
  match List.find p l1 with
  | Some x => Some x
  | None => List.find p l2
  end.
Proof.
  induction l1 as [|x l1 IH]; simpl; [reflexivity|]. now destruct (p x).
Qed.

Lemma find_none_all {A} (p : A -> bool) (l : list A) :
  List.find p l = None -> forall x, In x l -> p x = false.
Proof. intros H x Hx. now apply (find_none p l H). Qed.

(** X4. A resource that comes after another resource with the same [id] is
    never used: leaving it out of [resources] changes nothing in the result
    of the join.  (The fan-out fetches a shared resource once per
    assignment, so [resources] does hold such repetitions.) *)
Theorem join_shadowed_resource (assignments : list AppRoleAssignment)
    (before after : list ServicePrincipal) (first later : ServicePrincipal) :
  In first before -> id first = id later ->
  join assignments (before ++ later :: after) = join assignments (before ++ after).
Proof.
  intros Hin Hid. unfold join. apply join_loop_ext. intros a _.
  unfold find_resource. rewrite !find_over_app.
  destruct (List.find (fun r => strict_eq (id r) (resourceId a)) before) as [r|] eqn:Hfind;
    [reflexivity|].
  simpl. pose proof (find_none_all _ _ Hfind first Hin) as Hno. simpl in Hno.
  rewrite <- Hid, Hno. reflexivity.
Qed.

Lemma join_shadowed_resource_witness :
  join sampleAssignments ([resourceR1; resourceR2] ++
     {| id := JString guidR1; appRoles := None; appRoleAssignments := None |} :: [])
  = join sampleAssignments ([resourceR1; resourceR2] ++ []).
Proof.
  apply (join_shadowed_resource sampleAssignments [resourceR1; resourceR2] [] resourceR1).
  - left. reflexivity.
  - reflexivity.
Defined.

Lemma find_resource_unique resources a r :
  List.NoDup (List.map id resources) ->
  In r resources -> id r = resourceId a ->
  find_resource resources a = Some r.
Proof.
  unfold find_resource.
  induction resources as [|x rest IH]; intros Hnd Hin Hid; [destruct Hin|].
  simpl in *. inversion Hnd as [|y ys Hnotin Hrest]; subst.
  unfold strict_eq at 1. case_bool_decide as Hx.
  - destruct Hin as [->|Hin]; [reflexivity|].
    exfalso. apply Hnotin. apply in_map_iff.
    exists r. split; [congruence | exact Hin].
  - destruct Hin as [->|Hin]; [contradiction|]. now apply IH.
Qed.

(** X5. When the resources have pairwise different [id]s, their order does
    not matter: the join over any rearrangement of [resources] gives the
    same result. *)
Theorem join_resources_permutation (assignments : list AppRoleAssignment)
    (resources resources' : list ServicePrincipal) :
  List.NoDup (List.map id resources) ->
  Permutation resources resources' ->
  join assignments resources = join assignments resources'.
Proof.
  intros Hnd Hperm.
  assert (Hnd' : List.NoDup (List.map id resources')).
  { eapply Permutation_NoDup; [|exact Hnd]. now apply Permutation_map. }
  unfold join. apply join_loop_ext. intros a _.
  destruct (find_resource resources a) as [r|] eqn:Hr.
  - apply find_resource_Some in Hr as [Hin Hid]. symmetry.
    apply find_resource_unique; auto. eapply Permutation_in; eauto.
  - destruct (find_resource resources' a) as [r'|] eqn:Hr'; [|reflexivity].
    apply find_resource_Some in Hr' as [Hin Hid].
    assert (Hfound : find_resource resources a = Some r').
    { apply find_resource_unique; [exact Hnd | | exact Hid].
      eapply Permutation_in; [symmetry; exact Hperm | exact Hin]. }
    congruence.
Qed.

Lemma join_resources_permutation_witness :
  join sampleAssignments [resourceR1; resourceR2]
  = join sampleAssignments [resourceR2; resourceR1].
Proof.
  apply (join_resources_permutation sampleAssignments
           [resourceR1; resourceR2] [resourceR2; resourceR1]).
  - simpl. constructor; [intros [H|[]]; discriminate|].
    constructor; [intros []|constructor].
  - apply perm_swap.
Defined.

(** * Further properties of the locator and of the action *)

Lemma byFilter_state resource encode directory o s :
  fst (getAppRoleAssignments_byFilter resource encode directory o s)
  = {| requests := requests s ++ [filter_url resource (spMatchQuery encode o)];
       logged := logged s |}.
Proof.
  unfold getAppRoleAssignments_byFilter, getServicePrincipalForApp, bind, request_get,
    filter_url. simpl.
  destruct (get_servicePrincipals directory _) as [[[|first more]]|e]; reflexivity.
Qed.

Lemma locator_state resource encode directory o s :
  fst (getAppRoleAssignments resource encode directory o s)
  = {| requests := requests s ++ [locator_url resource encode o]; logged := logged s |}.
Proof.
  unfold getAppRoleAssignments, locator_url.
  destruct (appObjectId o) as [spId|]; [|apply byFilter_state].
  destruct (truthy (Some spId)); [|apply byFilter_state].
  unfold getSPAppRoleAssignments, bind, request_get, assignments_url. simpl.
  destruct (get_appRoleAssignments directory _) as [[[|a more]]|e]; reflexivity.
Qed.

Lemma commandAction_cases resource encode handle directory race o s :
  commandAction resource encode handle directory race o s =
  match getAppRoleAssignments resource encode directory o s with
  | (s1, Err e) => (s1, Err (handle e))
  | (s1, Ok None) => (s1, Err (handle TypeError))
  | (s1, Ok (Some assignments)) =>
      let sent := requests s1 ++
                  List.map (fun a => resource_url resource (resourceId a)) assignments in
      match Promise_all race (fetched resource directory assignments) with
      | Err e => ({| requests := sent; logged := logged s1 |}, Err (handle e))
      | Ok resources =>
          match join assignments resources with
          | Err e => ({| requests := sent; logged := logged s1 |}, Err (handle e))
          | Ok out => ({| requests := sent; logged := logged s1 ++ [out] |}, Ok tt)
          end
      end
  end.
Proof.
  unfold commandAction, try_catch, bind.
  destruct (getAppRoleAssignments resource encode directory o s) as [s1 [[assignments|]|e]];
    try reflexivity.
  rewrite push_tasks_run. simpl. rewrite fetched_resourceIds, List.map_map.
  destruct (Promise_all race (fetched resource directory assignments)) as [resources|e];
    simpl; [|reflexivity].
  destruct (join assignments resources); reflexivity.
Qed.

Lemma join_length assignments resources : forall out,
  join assignments resources = Ok out -> length out <= length assignments.
Proof.
  induction assignments as [|a rest IH]; intros out Hjoin.
  - unfold join in Hjoin. simpl in Hjoin. now injection Hjoin as <-.
  - rewrite join_cons in Hjoin.
    destruct (join_step resources a) as [new|] eqn:Hstep; [|discriminate].
    destruct (join rest resources) as [more|]; [|discriminate].
    injection Hjoin as <-. rewrite length_app. specialize (IH more eq_refl).
    assert (length new <= 1); [|simpl; lia].
    unfold join_step in Hstep.
    destruct (find_resource resources a) as [r|]; [|injection Hstep as <-; simpl; lia].
    destruct (appRoles r) as [roles|]; [|discriminate].
    destruct (find_role roles a); injection Hstep as <-; simpl; lia.
Qed.

(** X6. Whatever the options and the directory, the locator sends exactly
    one request and logs nothing: the query of the assignments of
    [appObjectId] when that option is a non-empty text, the filtered query
    of the service principals otherwise. *)
Theorem locator_single_request resource encode directory (o : Options) (s : State) :
  fst (getAppRoleAssignments resource encode directory o s)
  = {| requests := requests s ++ [locator_url resource encode o]; logged := logged s |} /\
  (forall spId, appObjectId o = Some spId -> spId <> "" ->
     locator_url resource encode o
     = resource +:+ "/v1.0/servicePrincipals/" +:+ spId +:+ "/appRoleAssignments") /\
  (truthy (appObjectId o) = false ->
     locator_url resource encode o
     = resource +:+ "/v1.0/servicePrincipals?$expand=appRoleAssignments&$filter="
       +:+ spMatchQuery encode o).
Proof.
  split; [apply locator_state|]. unfold locator_url. split.
  - intros spId -> Hne. now rewrite (proj2 (truthy_Some spId) Hne).
  - intros Hfalsy. destruct (appObjectId o) as [spId|]; [|reflexivity].
    now rewrite Hfalsy.
Qed.

Lemma locator_single_request_witness :
  locator_url graph sample_encode (byObjectId guid1)
  = graph +:+ "/v1.0/servicePrincipals/" +:+ guid1 +:+ "/appRoleAssignments" /\
  locator_url graph sample_encode (byDisplayName "Contoso")
  = graph +:+ "/v1.0/servicePrincipals?$expand=appRoleAssignments&$filter="
    +:+ spMatchQuery sample_encode (byDisplayName "Contoso").
Proof.
  split.
  - apply (proj1 (proj2 (locator_single_request graph sample_encode sampleDirectory
                           (byObjectId guid1) initial)) guid1); [reflexivity | discriminate].
  - apply (proj2 (proj2 (locator_single_request graph sample_encode sampleDirectory
                           (byDisplayName "Contoso") initial))). reflexivity.
Defined.

(** X7. The selectors are read in a fixed order.  A non-empty [appObjectId]
    decides alone: [appId] and [appDisplayName] are not looked at.
    Otherwise a non-empty [appId] decides and [appDisplayName] is not looked
    at.  An [appObjectId] or [appId] that is the empty text is treated as
    absent. *)
Theorem selector_precedence resource encode directory
    (spId v : string) (a a' n n' i : option string) (s : State) :
  spId <> "" -> v <> "" -> truthy i = false ->
  getAppRoleAssignments resource encode directory
    {| appId := a; appDisplayName := n; appObjectId := Some spId |} s
  = getAppRoleAssignments resource encode directory
      {| appId := a'; appDisplayName := n'; appObjectId := Some spId |} s /\
  getAppRoleAssignments resource encode directory
    {| appId := Some v; appDisplayName := n; appObjectId := i |} s
  = getAppRoleAssignments resource encode directory
      {| appId := Some v; appDisplayName := n'; appObjectId := None |} s /\
  getAppRoleAssignments resource encode directory
    {| appId := a; appDisplayName := n; appObjectId := Some "" |} s
  = getAppRoleAssignments resource encode directory
      {| appId := a; appDisplayName := n; appObjectId := None |} s /\
  getAppRoleAssignments resource encode directory
    {| appId := Some ""; appDisplayName := n; appObjectId := i |} s
  = getAppRoleAssignments resource encode directory
      {| appId := None; appDisplayName := n; appObjectId := i |} s.
Proof.
  intros HspId Hv Hi.
  apply truthy_Some in HspId. apply truthy_Some in Hv.
  split; [|split; [|split]].
  - unfold getAppRoleAssignments. cbn [appObjectId]. now rewrite HspId.
  - unfold getAppRoleAssignments. cbn [appObjectId].
    assert (Hq : forall i0 n0,
      getAppRoleAssignments_byFilter resource encode directory
        {| appId := Some v; appDisplayName := n0; appObjectId := i0 |} s
      = getAppRoleAssignments_byFilter resource encode directory
          {| appId := Some v; appDisplayName := n'; appObjectId := None |} s).
    { intros i0 n0. unfold getAppRoleAssignments_byFilter, spMatchQuery.
      cbn [appId]. now rewrite Hv. }
    destruct i as [x|]; [rewrite Hi|]; apply Hq.
  - reflexivity.
  - unfold getAppRoleAssignments. cbn [appObjectId].
    destruct i as [x|]; [rewrite Hi|]; reflexivity.
Qed.

Lemma selector_precedence_witness :
  getAppRoleAssignments graph sample_encode sampleDirectory
    {| appId := Some guid2; appDisplayName := Some "Twins"; appObjectId := Some guid1 |} initial
  = getAppRoleAssignments graph sample_encode sampleDirectory
      {| appId := None; appDisplayName := None; appObjectId := Some guid1 |} initial /\
  getAppRoleAssignments graph sample_encode sampleDirectory
    {| appId := Some guid2; appDisplayName := Some "Twins"; appObjectId := Some "" |} initial
  = getAppRoleAssignments graph sample_encode sampleDirectory
      {| appId := Some guid2; appDisplayName := None; appObjectId := None |} initial /\
  getAppRoleAssignments graph sample_encode sampleDirectory
    {| appId := Some guid2; appDisplayName := Some "Twins"; appObjectId := Some "" |} initial
  = getAppRoleAssignments graph sample_encode sampleDirectory
      {| appId := Some guid2; appDisplayName := Some "Twins"; appObjectId := None |} initial /\
  getAppRoleAssignments graph sample_encode sampleDirectory
    {| appId := Some ""; appDisplayName := Some "Twins"; appObjectId := Some "" |} initial
  = getAppRoleAssignments graph sample_encode sampleDirectory
      {| appId := None; appDisplayName := Some "Twins"; appObjectId := Some "" |} initial.
Proof.
  apply (selector_precedence graph sample_encode sampleDirectory guid1 guid2
           (Some guid2) None (Some "Twins") None (Some "") initial).
  - discriminate.
  - discriminate.
  - reflexivity.
Defined.

(** X8. A rejection of the locator's request is the failure of the whole
    action: what the handler makes of the rejection is thrown after that
    one request; no resource is requested and nothing is logged. *)
Theorem locator_rejection_propagates resource encode handle directory race
    (o : Options) (s : State) (e : error) :
  (truthy (appObjectId o) = true /\
   get_appRoleAssignments directory (locator_url resource encode o) = Err e) \/
  (truthy (appObjectId o) = false /\
   get_servicePrincipals directory (locator_url resource encode o) = Err e) ->
  commandAction resource encode handle directory race o s
  = ({| requests := requests s ++ [locator_url resource encode o]; logged := logged s |},
     Err (handle e)).
Proof.
  intros Hrej. rewrite commandAction_cases.
  pose proof (locator_state resource encode directory o s) as Hst.
  assert (Hans : snd (getAppRoleAssignments resource encode directory o s) = Err e).
  { unfold getAppRoleAssignments, locator_url in *.
    destruct Hrej as [[Ht Hresp]|[Hf Hresp]].
    - destruct (appObjectId o) as [spId|]; [|discriminate]. rewrite Ht in *.
      unfold getSPAppRoleAssignments, bind, request_get, assignments_url in *. simpl.
      now rewrite Hresp.
    - assert (Hby : snd (getAppRoleAssignments_byFilter resource encode directory o s)
                    = Err e).
      { unfold getAppRoleAssignments_byFilter, getServicePrincipalForApp, bind, request_get.
        simpl. destruct (appObjectId o) as [spId|]; [rewrite Hf in Hresp|];
          unfold filter_url in Hresp; now rewrite Hresp. }
      destruct (appObjectId o) as [spId|]; [rewrite Hf|]; exact Hby. }
  destruct (getAppRoleAssignments resource encode directory o s) as [s1 r].
  simpl in Hst, Hans. now subst.
Qed.

Lemma locator_rejection_propagates_witness :
  commandAction graph sample_encode sample_handle sampleDirectory 0 (byObjectId guidR1) initial
  = ({| requests := requests initial ++ [locator_url graph sample_encode (byObjectId guidR1)];
        logged := logged initial |},
     Err (sample_handle (Rejected "Request_ResourceNotFound"))).
Proof.
  apply (locator_rejection_propagates graph sample_encode sample_handle sampleDirectory 0
           (byObjectId guidR1) initial (Rejected "Request_ResourceNotFound")).
  left. split; vm_compute; reflexivity.
Defined.

(** X9. On the filter path, when the first service principal of the answer
    carries no [appRoleAssignments], the action fails with what the handler
    makes of a [TypeError], after the one request of the locator; nothing
    is logged. *)
Theorem missing_appRoleAssignments_fails resource encode handle directory race
    (o : Options) (s : State) (first : ServicePrincipal) (more : list ServicePrincipal) :
  truthy (appObjectId o) = false ->
  get_servicePrincipals directory (filter_url resource (spMatchQuery encode o))
    = Ok (mkCollection (first :: more)) ->
  appRoleAssignments first = None ->
  commandAction resource encode handle directory race o s
  = ({| requests := requests s ++ [filter_url resource (spMatchQuery encode o)];
        logged := logged s |},
     Err (handle TypeError)).
Proof.
  intros Hfalsy Hresp Hnone. rewrite commandAction_cases.
  assert (Hby : getAppRoleAssignments_byFilter resource encode directory o s
    = ({| requests := requests s ++ [filter_url resource (spMatchQuery encode o)];
          logged := logged s |}, Ok None)).
  { unfold getAppRoleAssignments_byFilter, getServicePrincipalForApp, bind, request_get.
    simpl. unfold filter_url in Hresp. rewrite Hresp. simpl. now rewrite Hnone. }
  assert (Hloc : getAppRoleAssignments resource encode directory o s
    = ({| requests := requests s ++ [filter_url resource (spMatchQuery encode o)];
          logged := logged s |}, Ok None)).
  { unfold getAppRoleAssignments. destruct (appObjectId o) as [spId|]; [|exact Hby].
    rewrite Hfalsy. exact Hby. }
  now rewrite Hloc.
Qed.

Lemma missing_appRoleAssignments_fails_witness :
  commandAction graph sample_encode sample_handle bareDirectory 0 (byAppId guid2) initial
  = ({| requests := requests initial ++
          [filter_url graph (spMatchQuery sample_encode (byAppId guid2))];
        logged := logged initial |},
     Err (sample_handle TypeError)).
Proof.
  apply (missing_appRoleAssignments_fails graph sample_encode sample_handle bareDirectory 0
           (byAppId guid2) initial resourceR1 []); reflexivity.
Defined.

(** X10. Every run of the action starts with the locator's request and ends
    in one of two ways: it succeeds after logging exactly one list of
    records, or it fails, with an error that went through the handler, and
    has logged nothing.  Requests and log entries made before the run are
    kept. *)
Theorem commandAction_outcome resource encode handle directory race
    (o : Options) (s : State) :
  let run := commandAction resource encode handle directory race o s in
  (exists more, requests (fst run) = requests s ++ locator_url resource encode o :: more) /\
  ((snd run = Ok tt /\ exists out, logged (fst run) = logged s ++ [out]) \/
   (exists e, snd run = Err (handle e) /\ logged (fst run) = logged s)).
Proof.
  intros run. subst run. rewrite commandAction_cases.
  pose proof (locator_state resource encode directory o s) as Hst.
  destruct (getAppRoleAssignments resource encode directory o s) as [s1 [[assignments|]|e]];
    simpl in Hst; subst s1; simpl.
  - destruct (Promise_all race (fetched resource directory assignments)) as [resources|e].
    + destruct (join assignments resources) as [out|e]; simpl.
      * split; [|left; split; [reflexivity | now exists out]].
        eexists. rewrite <- app_assoc. reflexivity.
      * split; [|right; now exists e].
        eexists. rewrite <- app_assoc. reflexivity.
    + simpl. split; [|right; now exists e].
      eexists. rewrite <- app_assoc. reflexivity.
  - split; [now exists [] | right; now exists TypeError].
  - split; [now exists [] | right; now exists e].
Qed.

(** X11. When the action succeeds, the one list it logged holds only records
    of resources it asked the directory for: the URL of each record's
    [resourceId] is among the requests of the run, and the run made at
    least one request more than it logged records. *)
Theorem logged_records_were_fetched resource encode handle directory race
    (o : Options) (s s' : State) :
  commandAction resource encode handle directory race o s = (s', Ok tt) ->
  exists out,
    logged s' = logged s ++ [out] /\
    (forall e, In e out -> In (resource_url resource (e_resourceId e)) (requests s')) /\
    length (requests s) + 1 + length out <= length (requests s').
Proof.
  rewrite commandAction_cases.
  pose proof (locator_state resource encode directory o s) as Hst.
  destruct (getAppRoleAssignments resource encode directory o s) as [s1 [[assignments|]|e]];
    simpl in Hst; subst s1; simpl; try discriminate.
  destruct (Promise_all race (fetched resource directory assignments)) as [resources|e];
    [|discriminate].
  destruct (join assignments resources) as [out|e] eqn:Hjoin; [|discriminate].
  intros Hrun. injection Hrun as <-. exists out. simpl. split; [reflexivity|]. split.
  - intros e He. apply in_or_app. right.
    pose proof (join_sources _ _ _ Hjoin e He) as Hsrc.
    apply in_map_iff. exists (source_of e). split; [reflexivity | exact Hsrc].
  - rewrite !length_app, length_map. simpl.
    pose proof (join_length _ _ _ Hjoin). lia.
Qed.

Lemma logged_records_were_fetched_witness :
  exists out,
    logged (fst (commandAction graph sample_encode sample_handle sampleDirectory 0
                   (byObjectId guid1) initial)) = logged initial ++ [out] /\
    (forall e, In e out ->
       In (resource_url graph (e_resourceId e))
          (requests (fst (commandAction graph sample_encode sample_handle sampleDirectory 0
                            (byObjectId guid1) initial)))) /\
    length (requests initial) + 1 + length out
    <= length (requests (fst (commandAction graph sample_encode sample_handle
                                sampleDirectory 0 (byObjectId guid1) initial))).
Proof.
  apply (logged_records_were_fetched graph sample_encode sample_handle sampleDirectory 0
           (byObjectId guid1) initial).
  vm_compute. reflexivity.
Defined.

(** * Properties of the telemetry *)

(** X12. The telemetry holds which selectors were given, not what they
    were: two sets of options that supply the same selectors leave the same
    telemetry, whatever the values; an empty text counts as given. *)
Theorem telemetry_presence_only (telemetryProperties : gmap string telemetryValue)
    (o o' : Options) :
  defined (appId o) = defined (appId o') ->
  defined (appDisplayName o) = defined (appDisplayName o') ->
  defined (appObjectId o) = defined (appObjectId o') ->
  initTelemetry telemetryProperties o = initTelemetry telemetryProperties o' /\
  initTelemetry telemetryProperties o !! "appId" = Some (TBool (defined (appId o))) /\
  initTelemetry telemetryProperties o !! "appDisplayName"
    = Some (TBool (defined (appDisplayName o))) /\
  initTelemetry telemetryProperties o !! "appObjectId"
    = Some (TBool (defined (appObjectId o))).
Proof.
  intros Ha Hn Hi. unfold initTelemetry. rewrite Ha, Hn, Hi.
  split; [reflexivity|]. repeat split.
  - rewrite !lookup_insert_ne by discriminate. now rewrite lookup_insert_eq.
  - rewrite lookup_insert_ne by discriminate. now rewrite lookup_insert_eq.
  - now rewrite lookup_insert_eq.
Qed.

Lemma telemetry_presence_only_witness :
  initTelemetry ∅ (byAppId guid2) = initTelemetry ∅ (byAppId "") /\
  initTelemetry ∅ (byAppId guid2) !! "appId" = Some (TBool (defined (appId (byAppId guid2)))) /\
  initTelemetry ∅ (byAppId guid2) !! "appDisplayName"
    = Some (TBool (defined (appDisplayName (byAppId guid2)))) /\
  initTelemetry ∅ (byAppId guid2) !! "appObjectId"
    = Some (TBool (defined (appObjectId (byAppId guid2)))).
Proof.
  apply (telemetry_presence_only ∅ (byAppId guid2) (byAppId "")); reflexivity.
Defined.

(** X13. The callback writes its three keys and no other: every other key
    of the telemetry keeps its value, and running the callback again, for
    other options, leaves what running it once for those options leaves. *)
Theorem telemetry_overwrites (telemetryProperties : gmap string telemetryValue)
    (o o' : Options) (key : string) :
  (key <> "appId" -> key <> "appDisplayName" -> key <> "appObjectId" ->
   initTelemetry telemetryProperties o !! key = telemetryProperties !! key) /\
  initTelemetry (initTelemetry telemetryProperties o') o = initTelemetry telemetryProperties o.
Proof.
  split.
  - intros Ha Hn Hi. unfold initTelemetry.
    now rewrite !lookup_insert_ne by congruence.
  - unfold initTelemetry. apply map_eq. intros k.
    destruct (decide (k = "appObjectId")) as [->|Hi];
      [now rewrite !lookup_insert_eq|].
    rewrite !(lookup_insert_ne _ "appObjectId") by congruence.
    destruct (decide (k = "appDisplayName")) as [->|Hn];
      [now rewrite !lookup_insert_eq|].
    rewrite !(lookup_insert_ne _ "appDisplayName") by congruence.
    destruct (decide (k = "appId")) as [->|Ha];
      [now rewrite !lookup_insert_eq|].
    rewrite !(lookup_insert_ne _ "appId") by congruence.
    rewrite !(lookup_insert_ne _ "appObjectId") by congruence.
    rewrite !(lookup_insert_ne _ "appDisplayName") by congruence.
    now rewrite !(lookup_insert_ne _ "appId") by congruence.
Qed.

Lemma telemetry_overwrites_witness :
  initTelemetry {[ "debug" := TBool true ]} (byAppId guid2) !! "debug"
  = ({[ "debug" := TBool true ]} : gmap string telemetryValue) !! "debug".
Proof.
  apply (proj1 (telemetry_overwrites {[ "debug" := TBool true ]} (byAppId guid2)
                  (byAppId guid2) "debug")); discriminate.
Defined.

(** * Further properties of the validation *)

(** X14. What the validator lets through is safe to put in a URL: when it
    answers [true], an [appId] or [appObjectId] that is a non-empty text is
    a GUID; in particular the identifier the locator writes into the path
    of its request, unescaped, is a GUID. *)
Theorem validated_selectors_are_guids (isValidGuid : string -> bool)
    resource encode (o : Options) :
  validators isValidGuid o = inr true ->
  (forall v, appId o = Some v -> v <> "" -> isValidGuid v = true) /\
  (forall v, appObjectId o = Some v -> v <> "" -> isValidGuid v = true) /\
  (forall spId, appObjectId o = Some spId -> spId <> "" ->
     isValidGuid spId = true /\
     locator_url resource encode o
     = resource +:+ "/v1.0/servicePrincipals/" +:+ spId +:+ "/appRoleAssignments").
Proof.
  intros Hpass.
  assert (Ha : forall v, appId o = Some v -> v <> "" -> isValidGuid v = true).
  { intros v Hv Hne. destruct (isValidGuid v) eqn:Hg; [reflexivity|].
    rewrite (validators_appId isValidGuid o v Hv Hne Hg) in Hpass. discriminate. }
  assert (Hi : forall v, appObjectId o = Some v -> v <> "" -> isValidGuid v = true).
  { intros v Hv Hne. destruct (isValidGuid v) eqn:Hg; [reflexivity|].
    assert (Hskip : ~ reported isValidGuid (appId o)).
    { intros (x & Hx & Hxne & Hxg). rewrite (Ha x Hx Hxne) in Hxg. discriminate. }
    rewrite (validators_appId_skipped _ _ Hskip), Hv in Hpass.
    rewrite (proj2 (truthy_Some v) Hne), Hg in Hpass. discriminate. }
  split; [exact Ha|]. split; [exact Hi|].
  intros spId Hv Hne. split; [now apply Hi|].
  unfold locator_url. rewrite Hv. now rewrite (proj2 (truthy_Some spId) Hne).
Qed.

Lemma validated_selectors_are_guids_witness :
  (forall v, appId (byObjectId guid1) = Some v -> v <> "" ->
     validation_isValidGuid v = true) /\
  (forall v, appObjectId (byObjectId guid1) = Some v -> v <> "" ->
     validation_isValidGuid v = true) /\
  (forall spId, appObjectId (byObjectId guid1) = Some spId -> spId <> "" ->
     validation_isValidGuid spId = true /\
     locator_url graph sample_encode (byObjectId guid1)
     = graph +:+ "/v1.0/servicePrincipals/" +:+ spId +:+ "/appRoleAssignments").
Proof.
  apply (validated_selectors_are_guids validation_isValidGuid graph sample_encode
           (byObjectId guid1)).
  vm_compute. reflexivity.
Defined.

(** X15. The validator reports [appId] first: when [appId] is a non-empty
    text that is not a GUID the message names it, whatever [appObjectId]
    and [appDisplayName] are; [appObjectId] is named only when [appId] is
    absent, empty or a GUID. *)
Theorem validators_report_order (isValidGuid : string -> bool)
    (v : string) (a n n' i i' : option string) (w : string) :
  v <> "" -> isValidGuid v = false ->
  w <> "" -> isValidGuid w = false ->
  ~ reported isValidGuid a ->
  validators isValidGuid {| appId := Some v; appDisplayName := n; appObjectId := i |}
    = inl (v +:+ " is not a valid GUID") /\
  validators isValidGuid {| appId := a; appDisplayName := n'; appObjectId := Some w |}
    = inl (w +:+ " is not a valid GUID").
Proof.
  intros Hv Hgv Hw Hgw Ha. split.
  - now apply validators_appId.
  - rewrite validators_appId_skipped by exact Ha. cbn [appObjectId].
    now rewrite (proj2 (truthy_Some w) Hw), Hgw.
Qed.

Lemma validators_report_order_witness :
  validators validation_isValidGuid
    {| appId := Some "not-a-guid"; appDisplayName := None; appObjectId := Some "neither" |}
    = inl ("not-a-guid" +:+ " is not a valid GUID") /\
  validators validation_isValidGuid
    {| appId := Some ""; appDisplayName := Some "Contoso"; appObjectId := Some "neither" |}
    = inl ("neither" +:+ " is not a valid GUID").
Proof.
  apply (validators_report_order validation_isValidGuid "not-a-guid" (Some "") None
           (Some "Contoso") (Some "neither") None "neither");
    try discriminate; try reflexivity.
  intros (x & Hx & Hne & _). injection Hx as <-. now apply Hne.
Defined.

(** X16. The fetches run side by side, yet when all of them are fulfilled
    the run does not depend on which settles first: the requests, the
    logged records and the outcome are the same for every order of
    settlement. *)
Theorem fulfilled_run_ignores_race resource encode handle directory (race race' : nat)
    (o : Options) (s s1 : State) (assignments : list AppRoleAssignment) :
  getAppRoleAssignments resource encode directory o s = (s1, Ok (Some assignments)) ->
  (forall t, In t (fetched resource directory assignments) -> is_ok t = true) ->
  commandAction resource encode handle directory race o s
  = commandAction resource encode handle directory race' o s.
Proof.
  intros Hloc Hall. rewrite !commandAction_cases, Hloc.
  destruct (Promise_all_fulfilled race _ Hall) as [-> _].
  destruct (Promise_all_fulfilled race' _ Hall) as [-> _].
  reflexivity.
Qed.

Lemma fulfilled_run_ignores_race_witness :
  commandAction graph sample_encode sample_handle sampleDirectory 0 (byObjectId guid1) initial
  = commandAction graph sample_encode sample_handle sampleDirectory 7 (byObjectId guid1) initial.
Proof.
  apply (fulfilled_run_ignores_race graph sample_encode sample_handle sampleDirectory 0 7
           (byObjectId guid1) initial
           {| requests := [graph +:+ "/v1.0/servicePrincipals/" +:+ guid1 +:+ "/appRoleAssignments"];
              logged := [] |}
           sampleAssignments).
  - vm_compute. reflexivity.
  - intros t Ht. vm_compute in Ht.
    destruct Ht as [<-|[<-|[<-|[]]]]; reflexivity.
Defined.
